(** * pytorch-unet-segmentation: data pipeline and IoU metric

    A shallow embedding of [src/metrics.py] and [src/data.py].

    - n-dimensional arrays and tensors are nested lists in row-major order
      (outermost list = first axis);
    - integer labels and 8-bit pixels are [Z], the [uint8] cast written out
      as [mod 256];
    - floating-point results of the metric are [fval]: an exact rational, an
      infinity, or not-a-number;
    - Python exceptions are [None] in the [option] monad;
    - the process-wide random generator is an explicit state threaded
      through the augmentation code. *)

From Stdlib Require Import Ascii String.
From Stdlib Require Import List ZArith QArith Qround Bool Lia Lqa Arith Sorted.
Import ListNotations.

Set Implicit Arguments.

(* ------------------------------------------------------------------ *)
(** ** Exceptions as [option] *)

Declare Scope err_scope.
Delimit Scope err_scope with err.

Definition obind {A B : Type} (m : option A) (k : A -> option B) : option B :=
  match m with
  | Some a => k a
  | None => None
  end.

Notation "x <- m ;; k" := (obind m (fun x => k))
  (at level 61, m at next level, right associativity) : err_scope.

Fixpoint mapM {A B : Type} (f : A -> option B) (l : list A) : option (list B) :=
  match l with
  | [] => Some []
  | x :: l' =>
      match f x, mapM f l' with
      | Some y, Some r => Some (y :: r)
      | _, _ => None
      end
  end.

(** Element-wise combination of two lists of the same length; a length
    mismatch is a shape error. *)
Fixpoint zip_strict {A B C : Type} (f : A -> B -> option C)
  (a : list A) (b : list B) : option (list C) :=
  match a, b with
  | [], [] => Some []
  | x :: a', y :: b' =>
      match f x y, zip_strict f a' b' with
      | Some z, Some r => Some (z :: r)
      | _, _ => None
      end
  | _, _ => None
  end.

(* ------------------------------------------------------------------ *)
(** ** src/metrics.py *)

Module Metrics.

Local Open Scope Z_scope.

(** A tensor of shape N x H x W and one of shape N x C x H x W. *)
Definition tensor3 (A : Type) := list (list (list A)).
Definition tensor4 (A : Type) := list (list (list (list A))).

Definition flatten3 {A : Type} (t : tensor3 A) : list A := concat (concat t).

Definition map3 {A B : Type} (f : A -> B) (t : tensor3 A) : tensor3 B :=
  map (map (map f)) t.

(** Element-wise binary operation of two tensors of equal shape.  Tensors of
    unequal shape are a shape error here (broadcasting of size-one axes is
    not represented). *)
Definition elementwise3 {A B C : Type} (op : A -> B -> C)
  (a : tensor3 A) (b : tensor3 B) : option (tensor3 C) :=
  zip_strict (zip_strict (zip_strict (fun x y => Some (op x y)))) a b.

(** Two tensors have the same shape. *)
Definition same_shape {A B : Type} (a : tensor3 A) (b : tensor3 B) : Prop :=
  Forall2 (Forall2 (fun (r : list A) (r' : list B) => length r = length r')) a b.

(** The value of a floating-point expression: a number, +infinity or NaN. *)
Inductive fval : Type :=
| FNum (q : Q)
| FInf
| FNaN.

(** [y_true.unique()]: the distinct values, in increasing order. *)
Fixpoint insert_unique (x : Z) (l : list Z) : list Z :=
  match l with
  | [] => [x]
  | y :: l' =>
      if x <? y then x :: l
      else if x =? y then l
      else y :: insert_unique x l'
  end.

Definition unique (t : tensor3 Z) : list Z :=
  fold_right insert_unique [] (flatten3 t).

(** [torch.argmax(y_pred, dim=1)] on one sample of shape C x H x W: the
    index of the first channel holding the largest score at each pixel.
    The scan keeps, per pixel, the best score so far and its channel. *)
Fixpoint zip_with {A B C : Type} (f : A -> B -> C) (a : list A) (b : list B)
  : list C :=
  match a, b with
  | x :: a', y :: b' => f x y :: zip_with f a' b'
  | _, _ => []
  end.

Definition better (k : Z) (best : Q * Z) (x : Q) : Q * Z :=
  if Qle_bool x (fst best) then best else (x, k).

Fixpoint argmax_scan (k : Z) (best : list (list (Q * Z)))
  (planes : list (list (list Q))) : list (list (Q * Z)) :=
  match planes with
  | [] => best
  | p :: ps => argmax_scan (k + 1) (zip_with (zip_with (better k)) best p) ps
  end.

Definition argmax_sample (s : list (list (list Q))) : option (list (list Z)) :=
  match s with
  | [] => None (* reduction over an axis of size zero raises *)
  | p0 :: ps =>
      Some (map (map snd)
              (argmax_scan 1 (map (map (fun x => (x, 0))) p0) ps))
  end.

Definition argmax_dim1 (y_pred : tensor4 Q) : option (tensor3 Z) :=
  mapM argmax_sample y_pred.

(** [mask.float().sum()]: the number of [True] entries, as an exact
    integer.  The code accumulates in float32, which is exact up to 2^24
    cells; above that its sum is this count rounded. *)
Definition mask_sum (m : tensor3 bool) : Z :=
  Z.of_nat (count_occ bool_dec (flatten3 m) true).

(** Floating-point division of two non-negative counts, as an exact
    rational.  The code's float32 quotient is this value rounded to
    nearest: the cases 0/0 and x/0, the bounds 0 and 1 and the values 0/x
    and x/x are the same; a quotient just below 1 may round to 1. *)
Definition fdiv_count (a b : Z) : fval :=
  if b =? 0 then (if a =? 0 then FNaN else FInf)
  else FNum (inject_Z a / inject_Z b).

Definition _class_iou (predicted_image y_true : tensor3 Z) (c : Z)
  : option fval :=
  (let predicted_class_mask := map3 (fun v => v =? c) predicted_image in
   let true_class_mask := map3 (fun v => v =? c) y_true in
   intersection <- elementwise3 andb predicted_class_mask true_class_mask ;;
   union <- elementwise3 orb predicted_class_mask true_class_mask ;;
   Some (fdiv_count (mask_sum intersection) (mask_sum union)))%err.

(** [np.mean] of a list of Python floats. *)
Definition fadd (a b : fval) : fval :=
  match a, b with
  | FNaN, _ | _, FNaN => FNaN
  | FInf, _ | _, FInf => FInf
  | FNum x, FNum y => FNum (x + y)
  end.

Definition np_mean (l : list fval) : fval :=
  match l with
  | [] => FNaN (* 0.0 / 0 with a RuntimeWarning, no exception *)
  | _ :: _ =>
      match fold_left fadd l (FNum 0) with
      | FNum s => FNum (s / inject_Z (Z.of_nat (length l)))
      | v => v
      end
  end.

(** The classes that are scored: [c for c in true_classes if c != 0]. *)
Definition scored_classes (y_true : tensor3 Z) : list Z :=
  filter (fun c => negb (c =? 0)) (unique y_true).

Definition iou (y_true : tensor3 Z) (y_pred : tensor4 Q) : option fval :=
  (let true_classes := unique y_true in
   predicted_image <- argmax_dim1 y_pred ;;
   scores <- mapM (_class_iou predicted_image y_true)
               (filter (fun c => negb (c =? 0)) true_classes) ;;
   Some (np_mean scores))%err.

(** The number of cells where class [c] is both predicted and true, and the
    number of cells where it is predicted or true, cell by cell in
    row-major order. *)
Definition overlap_counts (predicted_image y_true : tensor3 Z) (c : Z)
  : Z * Z :=
  let p := map (fun v => v =? c) (flatten3 predicted_image) in
  let t := map (fun v => v =? c) (flatten3 y_true) in
  (Z.of_nat (count_occ bool_dec (zip_with andb p t) true),
   Z.of_nat (count_occ bool_dec (zip_with orb p t) true)).

Definition ratio_of (predicted_image y_true : tensor3 Z) (c : Z) : Q :=
  inject_Z (fst (overlap_counts predicted_image y_true c))
  / inject_Z (snd (overlap_counts predicted_image y_true c)).

(** The sum of a list of numbers, as [np.mean] accumulates it. *)
Fixpoint total (l : list Q) : Q :=
  match l with
  | [] => 0
  | q :: l' => q + total l'
  end.

(** The same element-wise function applied to every score of the tensor
    (a rescaling of the scores, a soft-max numerator, ...). *)
Definition map4 {A B : Type} (f : A -> B) (t : tensor4 A) : tensor4 B :=
  map (map (map (map f))) t.

End Metrics.

(* ------------------------------------------------------------------ *)
(** ** src/data.py *)

Module Data.

Local Open Scope nat_scope.

(** *** Arrays and PIL images *)

(** A two-dimensional array (H x W) as its list of rows.  A NumPy array and
    a PIL image are both rectangular: every row has the same length. *)
Definition array2 (A : Type) := list (list A).

Definition height {A : Type} (a : array2 A) : nat := length a.

Definition width {A : Type} (a : array2 A) : nat :=
  match a with
  | [] => 0
  | row :: _ => length row
  end.

Definition rect {A : Type} (a : array2 A) : Prop :=
  Forall (fun row => length row = width a) a.

(** The values held by an array (its value set, with repetitions). *)
Definition values {A : Type} (a : array2 A) : list A := concat a.

Definition pixel_at {A : Type} (a : array2 A) (r c : nat) : option A :=
  match nth_error a r with
  | Some row => nth_error row c
  | None => None
  end.

(** An image pixel is its vector of channel values. *)
Definition pixel := list Z.

(** A PIL image; [size] is (width, height) as PIL reports it. *)
Definition pil (A : Type) := array2 A.

Definition size {A : Type} (img : pil A) : nat * nat := (width img, height img).

(** [TF.to_pil_image] of an 8-bit array and [np.array] of an 8-bit image
    keep every pixel value in place. *)
Definition to_pil_image {A : Type} (a : array2 A) : pil A := a.
Definition np_array {A : Type} (img : pil A) : array2 A := img.

(** [.astype('uint8')] of an integer value: reduction modulo 256. *)
Definition astype_uint8 (a : array2 Z) : array2 Z :=
  map (map (fun v => (v mod 256)%Z)) a.

(** [.astype('uint8')] of a floating-point value: truncation toward zero,
    then reduction modulo 256. *)
Definition uint8_of_float (q : Q) : Z :=
  (Z.quot (Qnum q) (Z.pos (Qden q)) mod 256)%Z.

(** *** skimage.transform.resize, order 0, no anti-aliasing

    Output cell [i] along an axis of [n_out] cells reads the input cell
    nearest to the centre-aligned coordinate
    [(i + 1/2) * n_in / n_out - 1/2], computed here in exact arithmetic.
    The library evaluates the coordinate in binary64 and, where it falls
    exactly between two cells, may read the other neighbour; either way
    the cell read is a cell of the input. *)
Definition nearest_index (n_in n_out i : nat) : nat :=
  ((2 * i + 1) * n_in) / (2 * n_out).

(** Gather the cells of [a] selected by a row and a column index map. *)
Definition gather {A : Type} (zero : A) (a : array2 A)
  (row_of col_of : nat -> nat) (out_h out_w : nat) : array2 A :=
  map (fun i =>
         map (fun j => nth (col_of j) (nth (row_of i) a []) zero)
           (seq 0 out_w))
    (seq 0 out_h).

Definition resize_nearest (a : array2 Z) (out_h out_w : nat)
  : option (array2 Z) :=
  if (height a =? 0) || (width a =? 0)
  then None (* a zero-size array has no minimum: ValueError *)
  else Some (gather 0%Z a
               (nearest_index (height a) out_h)
               (nearest_index (width a) out_w)
               out_h out_w).

Definition _resize_mask (mask : array2 Z) (new_size : nat)
  : option (array2 Z) :=
  option_map astype_uint8 (resize_nearest mask new_size new_size).

(** *** PIL geometry *)

(** [TF.crop(img, top, left, height, width)]: the output has the requested
    size; cell (r, c) is the input cell (top + r, left + c), and [zero]
    where that lies outside the input. *)
Definition crop {A : Type} (zero : A) (img : pil A)
  (top left new_height new_width : nat) : pil A :=
  gather zero img (fun r => top + r) (fun c => left + c) new_height new_width.

(** [TF.hflip]: every row is reversed. *)
Definition hflip {A : Type} (img : pil A) : pil A := map (@rev A) img.

(** *** The random source

    The generator is a tape of raw outputs and the number of outputs
    consumed so far. *)
Record rng : Type := mkRng { tape : nat -> N; used : nat }.

(** A computation that may draw from the generator and may raise. *)
Definition M (A : Type) : Type := rng -> option (A * rng).

Definition ret {A : Type} (a : A) : M A := fun g => Some (a, g).

Definition bind {A B : Type} (m : M A) (k : A -> M B) : M B :=
  fun g =>
    match m g with
    | Some (a, g') => k a g'
    | None => None
    end.

Definition lift {A : Type} (o : option A) : M A :=
  fun g =>
    match o with
    | Some a => Some (a, g)
    | None => None
    end.

Definition raise {A : Type} : M A := fun _ => None.

Declare Scope rand_scope.
Delimit Scope rand_scope with rand.
Notation "x <- m ;; k" := (bind m (fun x => k))
  (at level 61, m at next level, right associativity) : rand_scope.
Notation "' pat <- m ;; k" := (bind m (fun x => match x with pat => k end))
  (at level 61, pat pattern, m at next level, right associativity) : rand_scope.

(** One raw output of the generator. *)
Definition next_raw : M N :=
  fun g => Some (tape g (used g), mkRng (tape g) (S (used g))).

(** [random.random()]: a 53-bit fraction in [0, 1). *)
Definition uniform01 (raw : N) : Q := Z.of_N (raw mod 2 ^ 53) # 2 ^ 53.

Definition random_random : M Q :=
  (r <- next_raw ;;
   ret (uniform01 r))%rand.

(** [randint(low, high)]: an integer in [low, high); an empty range raises. *)
Definition randint (low high : nat) : M nat :=
  if high <=? low then raise
  else (r <- next_raw ;;
        ret (low + N.to_nat (r mod N.of_nat (high - low))))%rand.

(** *** DataAugmentation *)

Record DataAugmentation : Type := mkDataAugmentation {
  central_crop_size : nat;
  h_flipping_chance : Q;
  brightness_rate : Q;
  contrast_rate : Q;
  saturation_rate : Q;
  hue_rate : Q
}.

Definition default_augmentation : DataAugmentation :=
  mkDataAugmentation 512 (1 # 2) (1 # 10) (1 # 10) (1 # 10) (1 # 20).

(** [transforms.RandomCrop.get_params(img, output_size)]. *)
Definition get_params {A : Type} (img : pil A) (output_size : nat * nat)
  : M (nat * nat * nat * nat) :=
  let '(w, h) := size img in
  let '(th, tw) := output_size in
  if (h <? th) || (w <? tw) then raise
  else if (w =? tw) && (h =? th) then ret (0, 0, h, w)
  else (i <- randint 0 (h - th + 1) ;;
        j <- randint 0 (w - tw + 1) ;;
        ret (i, j, th, tw))%rand.

(** [PairRandomCrop(image_size)(image, mask)]. *)
Definition PairRandomCrop (image_size : nat)
  (image : pil pixel) (mask : pil Z) : M (pil pixel * pil Z) :=
  (crop_params <- get_params image (image_size, image_size) ;;
   let '(start_y, start_x, new_height, new_width) := crop_params in
   let image := crop [] image start_y start_x new_height new_width in
   let mask := crop 0%Z mask start_y start_x new_height new_width in
   ret (image, mask))%rand.

(** The fields of a [DeepFashion2Dataset] object. *)
Record DeepFashion2Dataset : Type := mkDataset {
  _image_resize : nat;
  _data_augmentation : option DataAugmentation;
  _image_mask_pairs : list (string * string)
}.

Section Pipeline.

(** The library transforms whose arithmetic is floating point are taken as
    they are called:
    - [ColorJitter b c s h img]: [transforms.ColorJitter(...)(img)], which
      draws its factors from the generator;
    - [skimage_resize img h w]: [skimage.transform.resize] with order 0,
      [preserve_range=True] and the default anti-aliasing. *)
Variable ColorJitter : Q -> Q -> Q -> Q -> pil pixel -> M (pil pixel).
Variable skimage_resize :
  array2 pixel -> nat -> nat -> option (array2 (list Q)).

Definition augment (self : DataAugmentation)
  (image : pil pixel) (mask : pil Z) : M (pil pixel * pil Z) :=
  (image <- ColorJitter (brightness_rate self) (contrast_rate self)
              (saturation_rate self) (hue_rate self) image ;;
   let random_crop := PairRandomCrop (central_crop_size self) in
   ' (image, mask) <- random_crop image mask ;;
   r <- random_random ;;
   if negb (Qle_bool r (h_flipping_chance self))
   then ret (hflip image, hflip mask)
   else ret (image, mask))%rand.

Definition _resize_image (img : array2 pixel) (new_size : nat)
  : option (array2 pixel) :=
  option_map (map (map (map uint8_of_float)))
    (skimage_resize img new_size new_size).

(** [transforms.ToTensor()]: channel-first, every value divided by 255. *)
Definition channels (img : pil pixel) : nat :=
  match img with
  | (px :: _) :: _ => length px
  | _ => 0
  end.

Definition ToTensor (img : pil pixel) : list (array2 Q) :=
  map (fun c =>
         map (map (fun px : pixel => (inject_Z (nth c px 0%Z) / 255)%Q)) img)
    (seq 0 (channels img)).

(** [transforms.Normalize(mean=(m,), std=(s,))]. *)
Definition Normalize (mean std : Q) (t : list (array2 Q)) : list (array2 Q) :=
  map (map (map (fun x => ((x - mean) / std)%Q))) t.

Definition _transform (self : DeepFashion2Dataset)
  (image : array2 pixel) (mask : array2 Z)
  : M (list (array2 Q) * array2 Z) :=
  (image <- lift (option_map to_pil_image
                    (_resize_image image (_image_resize self))) ;;
   mask <- lift (option_map to_pil_image
                   (_resize_mask mask (_image_resize self))) ;;
   ' (image, mask) <-
       match _data_augmentation self with
       | Some da => augment da image mask
       | None => ret (image, mask)
       end ;;
   let image := ToTensor image in
   let image := Normalize 0 1 image in
   ret (image, np_array mask))%rand.

End Pipeline.

(** What the pipeline relies on from [transforms.ColorJitter]: with rates in
    their documented ranges it raises nothing and returns an image of the
    same size. *)
Definition valid_rates (self : DataAugmentation) : Prop :=
  (0 <= brightness_rate self)%Q /\ (0 <= contrast_rate self)%Q /\
  (0 <= saturation_rate self)%Q /\
  (0 <= hue_rate self)%Q /\ (hue_rate self <= 1 # 2)%Q.

Definition ColorJitter_keeps_size
  (ColorJitter : Q -> Q -> Q -> Q -> pil pixel -> M (pil pixel)) : Prop :=
  forall b c s h img g,
    (0 <= b)%Q -> (0 <= c)%Q -> (0 <= s)%Q -> (0 <= h)%Q -> (h <= 1 # 2)%Q ->
    exists img' g',
      ColorJitter b c s h img g = Some (img', g') /\ size img' = size img.

(** A stand-in for the library jitter, used to run the pipeline on examples:
    it draws one brightness factor in [1 - b, 1 + b] and scales every
    channel value, saturating at 0 and 255. *)
Definition clamp_uint8 (z : Z) : Z := Z.max 0 (Z.min 255 z).

Definition brightness_jitter (b c s h : Q) (img : pil pixel) : M (pil pixel) :=
  if Qle_bool 0 b && Qle_bool 0 c && Qle_bool 0 s && Qle_bool 0 h
     && Qle_bool h (1 # 2)
  then (u <- random_random ;;
        let factor := (1 - b + 2 * b * u)%Q in
        ret (map (map (map (fun v =>
               clamp_uint8 (Qfloor (inject_Z v * factor))))) img))%rand
  else raise.

(** A stand-in for the anti-aliased image resize: plain nearest-neighbour
    gathering of the pixels. *)
Definition nearest_image_resize (img : array2 pixel) (out_h out_w : nat)
  : option (array2 (list Q)) :=
  if (height img =? 0) || (width img =? 0) then None
  else Some (map (map (map inject_Z))
               (gather [] img (nearest_index (height img) out_h)
                  (nearest_index (width img) out_w) out_h out_w)).

(** *** DeepFashion2Dataset.__init__ *)

Local Open Scope string_scope.

Inductive exn : Type :=
| ValueError
| FileNotFoundError
| JSONDecodeError.

(** What the constructor does to the outside world, in order. *)
Inductive io_event : Type :=
| EvOpen (path : string)
| EvIsFile (path : string)
| EvPrint (n_images n_pairs : nat).

Record row : Type := mkRow {
  image_path : string;
  mask_path : string;
  set : string
}.

Inductive file_content : Type :=
| Missing
| Malformed
| Rows (data : list row).

Record filesystem : Type := mkFs {
  read_json : string -> file_content;
  isfile : string -> bool
}.

Definition starts_with_slash (s : string) : bool :=
  match s with
  | String c _ => Ascii.eqb c "/"%char
  | EmptyString => false
  end.

Fixpoint ends_with_slash (s : string) : bool :=
  match s with
  | EmptyString => false
  | String c EmptyString => Ascii.eqb c "/"%char
  | String _ s' => ends_with_slash s'
  end.

(** [os.path.join] of two components. *)
Definition path_join (a b : string) : string :=
  if starts_with_slash b then b
  else if String.eqb a "" || ends_with_slash a then a ++ b
  else a ++ "/" ++ b.

Definition __len__ (self : DeepFashion2Dataset) : nat :=
  length (_image_mask_pairs self).

Definition valid_subsets : list string := ["train"; "validation"; "test"].

(** The [os.path.isfile(img) and os.path.isfile(mask)] filter; the second
    test runs only when the first holds. *)
Fixpoint existing_pairs (fs : filesystem) (pairs : list (string * string))
  : list io_event * list (string * string) :=
  match pairs with
  | [] => ([], [])
  | (img, mask) :: rest =>
      let '(ev, kept) := existing_pairs fs rest in
      if isfile fs img
      then if isfile fs mask
           then (EvIsFile img :: EvIsFile mask :: ev, (img, mask) :: kept)
           else (EvIsFile img :: EvIsFile mask :: ev, kept)
      else (EvIsFile img :: ev, kept)
  end.

Definition __init__ (fs : filesystem) (path : string) (image_resize : nat)
  (subset : string) (data_augmentation : option DataAugmentation)
  : list io_event * (exn + DeepFashion2Dataset) :=
  if negb (existsb (String.eqb subset) valid_subsets)
  then ([], inl ValueError)
  else
    let manifest := path_join path "data.json" in
    match read_json fs manifest with
    | Missing => ([EvOpen manifest], inl FileNotFoundError)
    | Malformed => ([EvOpen manifest], inl JSONDecodeError)
    | Rows data =>
        let images := map (fun r => path_join path (image_path r))
                        (filter (fun r => String.eqb (set r) subset) data) in
        let masks := map (fun r => path_join path (mask_path r))
                       (filter (fun r => String.eqb (set r) subset) data) in
        let '(ev, pairs) := existing_pairs fs (combine images masks) in
        (EvOpen manifest :: ev ++ [EvPrint (length images) (length pairs)],
         inr (mkDataset image_resize data_augmentation pairs))
    end.

(** *** DeepFashion2Dataset.__getitem__ and the demonstration script *)

(** [skimage.io.imread] on the files on disk: the decoded image or mask, or
    nothing when the file cannot be read. *)
Record image_store : Type := mkStore {
  imread_image : string -> option (array2 pixel);
  imread_mask : string -> option (array2 Z)
}.

(** Indexing a NumPy array along its first axis: indices from [-n] to
    [n - 1] are valid, a negative one counts from the end, anything else
    is an [IndexError]. *)
Definition index_row {A : Type} (rows : list A) (idx : Z) : option A :=
  let n := Z.of_nat (length rows) in
  if ((0 <=? idx) && (idx <? n))%Z then nth_error rows (Z.to_nat idx)
  else if ((- n <=? idx) && (idx <? 0))%Z
       then nth_error rows (Z.to_nat (idx + n))
       else None.

(** [random.randint(a, b)]: both ends included. *)
Definition random_randint (a b : nat) : M nat := randint a (b + 1).

Section Fetch.

Variable ColorJitter : Q -> Q -> Q -> Q -> pil pixel -> M (pil pixel).
Variable skimage_resize :
  array2 pixel -> nat -> nat -> option (array2 (list Q)).

Definition __getitem__ (store : image_store) (self : DeepFashion2Dataset)
  (idx : Z) : M (list (array2 Q) * array2 Z) :=
  (' (image_path, mask_path) <- lift (index_row (_image_mask_pairs self) idx) ;;
   image <- lift (imread_image store image_path) ;;
   mask <- lift (imread_mask store mask_path) ;;
   _transform ColorJitter skimage_resize self image mask)%rand.

(** The sample-drawing part of the script under [if __name__ == '__main__']:
    [idxs = [random.randint(0, len(data)) for _ in range(n_rows)]], then
    [data[idx]] for each index in turn (the plotting is left out). *)
Fixpoint draw_indices (n_rows len : nat) : M (list nat) :=
  match n_rows with
  | O => ret []
  | S k =>
      (idx <- random_randint 0 len ;;
       rest <- draw_indices k len ;;
       ret (idx :: rest))%rand
  end.

Fixpoint fetch_all (store : image_store) (data : DeepFashion2Dataset)
  (idxs : list nat) : M (list (list (array2 Q) * array2 Z)) :=
  match idxs with
  | [] => ret []
  | idx :: rest =>
      (sample <- __getitem__ store data (Z.of_nat idx) ;;
       samples <- fetch_all store data rest ;;
       ret (sample :: samples))%rand
  end.

Definition main_fetch (store : image_store) (data : DeepFashion2Dataset)
  (n_rows : nat) : M (list (list (array2 Q) * array2 Z)) :=
  (idxs <- draw_indices n_rows (__len__ data) ;;
   fetch_all store data idxs)%rand.

End Fetch.

(** What the pipeline relies on from [skimage.transform.resize]: the output
    has the requested shape. *)
Definition skimage_resize_shape
  (skimage_resize : array2 pixel -> nat -> nat -> option (array2 (list Q)))
  : Prop :=
  forall img out_h out_w out,
    skimage_resize img out_h out_w = Some out ->
    height out = out_h /\ Forall (fun row => length row = out_w) out.

(** The cell of a channel-first tensor at channel [c], row [r], column [j]. *)
Definition tensor_at (t : list (array2 Q)) (c r j : nat) : option Q :=
  match nth_error t c with
  | Some plane => pixel_at plane r j
  | None => None
  end.

End Data.

(* ------------------------------------------------------------------ *)
(** ** Example inputs *)

Module Examples.

Import Data.

Definition background_only_labels : Metrics.tensor3 Z :=
  [[[0; 0]; [0; 0]]]%Z.

Definition two_class_scores : Metrics.tensor4 Q :=
  [[[[1#2; 1#3]; [1#4; 1#5]]; [[1#3; 1#2]; [1#8; 1#2]]]].

Definition sample_labels : Metrics.tensor3 Z := [[[0; 1; 1]; [2; 2; 0]]]%Z.
Definition sample_prediction : Metrics.tensor3 Z := [[[0; 1; 2]; [0; 2; 0]]]%Z.

Definition three_class_labels : Metrics.tensor3 Z := [[[0; 1]; [2; 1]]]%Z.

Definition three_class_scores : Metrics.tensor4 Q :=
  [[[[9#10; 1#10]; [0#1; 2#10]];
    [[1#10; 8#10]; [3#10; 7#10]];
    [[0#1; 1#10]; [7#10; 1#10]]]].

(** A 16-bit label map, and an 8-bit one. *)
Definition wide_mask : array2 Z := [[256; 256]; [256; 256]]%Z.
Definition small_mask : array2 Z := [[0; 1; 1]; [2; 2; 0]; [0; 13; 13]]%Z.

Definition small_image : array2 pixel :=
  [[[10; 20; 30]; [40; 50; 60]; [70; 80; 90]];
   [[11; 21; 31]; [41; 51; 61]; [71; 81; 91]];
   [[12; 22; 32]; [42; 52; 62]; [72; 82; 92]]]%Z.

(** A generator that has already produced four outputs. *)
Definition tape_a (n : nat) : N :=
  ((N.of_nat n * 6364136223846793005 + 1442695040888963407) mod 2 ^ 64)%N.
Definition gen_a : rng := mkRng tape_a 4.

Definition crop2 : DataAugmentation :=
  mkDataAugmentation 2 (1 # 2) (1 # 10) (1 # 10) (1 # 10) (1 # 20).

(** The same configuration with a low flip threshold. *)
Definition flip_often : DataAugmentation :=
  mkDataAugmentation 2 (1 # 20) (1 # 10) (1 # 10) (1 # 10) (1 # 20).

(** What [augment] returns for [flip_often] on the small image and mask. *)
Definition flipped_image : pil pixel :=
  [[[68; 78; 88]; [39; 49; 58]]; [[69; 79; 89]; [40; 50; 59]]]%Z.
Definition flipped_mask : pil Z := [[1; 1]; [0; 2]]%Z.

(** What [PairRandomCrop 2] returns on the small image and mask. *)
Definition cropped_image : pil pixel :=
  [[[11; 21; 31]; [41; 51; 61]]; [[12; 22; 32]; [42; 52; 62]]]%Z.
Definition cropped_mask : pil Z := [[2; 2]; [0; 13]]%Z.

Definition plain_dataset : DeepFashion2Dataset := mkDataset 2 None [].

Definition manifest_rows : list row :=
  [mkRow "img/a.jpg" "mask/a.png" "train";
   mkRow "img/b.jpg" "mask/b.png" "test"]%string.

Definition small_fs : filesystem :=
  mkFs (fun p => if String.eqb p "full_dataset/data.json"
                 then Rows manifest_rows else Missing)
       (fun p => String.eqb p "full_dataset/img/a.jpg"
                 || String.eqb p "full_dataset/mask/a.png")%string.

(** A store holding one image and one mask, and a dataset of one pair. *)
Definition small_store : image_store :=
  mkStore (fun p => if String.eqb p "full_dataset/img/a.jpg"
                    then Some small_image else None)
          (fun p => if String.eqb p "full_dataset/mask/a.png"
                    then Some small_mask else None).

Definition one_pair_dataset : DeepFashion2Dataset :=
  mkDataset 2 None [("full_dataset/img/a.jpg", "full_dataset/mask/a.png")]%string.

Definition augmented_dataset : DeepFashion2Dataset :=
  mkDataset 3 (Some crop2) [].

(** A configuration whose crop is larger than the small image. *)
Definition crop5 : DataAugmentation :=
  mkDataAugmentation 5 (1 # 2) (1 # 10) (1 # 10) (1 # 10) (1 # 20).

Definition undersized_dataset : DeepFashion2Dataset :=
  mkDataset 2 (Some crop5) [].

Definition square_mask : array2 Z := [[0; 1]; [2; 255]]%Z.

(** A mask smaller than the small image. *)
Definition short_mask : array2 Z := [[7; 7; 7]]%Z.

(** A generator whose every output is 1. *)
Definition gen_ones : rng := mkRng (fun _ => 1%N) 0.

(** Labels that use classes 0 and 3 only, and four-channel scores whose
    arg-max is exactly these labels. *)
Definition skipped_class_labels : Metrics.tensor3 Z := [[[0; 3]; [3; 0]]]%Z.

Definition four_class_scores : Metrics.tensor4 Q :=
  [[[[9#10; 1#10]; [1#10; 7#10]];
    [[1#10; 2#10]; [2#10; 1#10]];
    [[1#10; 1#10]; [3#10; 1#10]];
    [[2#10; 8#10]; [9#10; 3#10]]]].

(** Labels that the arg-max of [three_class_scores] gets partly right. *)
Definition partly_right_labels : Metrics.tensor3 Z := [[[1; 1]; [2; 0]]]%Z.

(** A prediction for the sample labels that misses every foreground pixel,
    and scores whose arg-max is that prediction. *)
Definition wrong_prediction : Metrics.tensor3 Z := [[[1; 2; 2]; [1; 1; 0]]]%Z.

Definition wrong_scores : Metrics.tensor4 Q :=
  [[[[0#1; 0#1; 0#1]; [0#1; 0#1; 1#1]];
    [[1#1; 0#1; 0#1]; [1#1; 1#1; 0#1]];
    [[0#1; 1#1; 1#1]; [0#1; 0#1; 0#1]]]].

End Examples.

(* ------------------------------------------------------------------ *)
(** ** Facts about lists shared by both modules *)

Lemma mapM_Forall {A B : Type} (f : A -> option B) (P : B -> Prop) (l : list A) :
  (forall x, In x l -> exists y, f x = Some y /\ P y) ->
  exists r, mapM f l = Some r /\ Forall P r /\ length r = length l.
Proof.
  induction l as [|x l IH]; intros H; simpl.
  - exists []. repeat split. constructor.
  - destruct (H x (or_introl eq_refl)) as [y [Hy Py]].
    destruct IH as [r [Hr [Fr Lr]]].
    { intros z Hz. apply H. now right. }
    rewrite Hy, Hr. exists (y :: r). repeat split.
    + now constructor.
    + simpl. now rewrite Lr.
Qed.

Lemma zip_strict_Forall2 {A B C : Type} (R : A -> B -> Prop)
  (f : A -> B -> option C) (h : A -> B -> C) (a : list A) (b : list B) :
  Forall2 R a b ->
  (forall x y, R x y -> f x y = Some (h x y)) ->
  zip_strict f a b = Some (Metrics.zip_with h a b).
Proof.
  intros F Hf. induction F as [|x y a b Rxy F IH]; simpl.
  - reflexivity.
  - now rewrite (Hf x y Rxy), IH.
Qed.

Lemma zip_with_app {A B C : Type} (h : A -> B -> C) (x a : list A) (y b : list B) :
  length x = length y ->
  Metrics.zip_with h (x ++ a) (y ++ b)
  = Metrics.zip_with h x y ++ Metrics.zip_with h a b.
Proof.
  revert y. induction x as [|u x IH]; intros [|v y] L; simpl in *;
    try discriminate; try reflexivity.
  f_equal. apply IH. now injection L.
Qed.

Lemma concat_zip_with {A B C : Type} (h : A -> B -> C)
  (a : list (list A)) (b : list (list B)) :
  Forall2 (fun r r' => length r = length r') a b ->
  concat (Metrics.zip_with (Metrics.zip_with h) a b)
  = Metrics.zip_with h (concat a) (concat b).
Proof.
  induction 1 as [|x y a b L F IH]; simpl.
  - reflexivity.
  - now rewrite zip_with_app, IH.
Qed.

Lemma Forall2_concat {A B : Type} (R : A -> B -> Prop)
  (a : list (list A)) (b : list (list B)) :
  Forall2 (Forall2 R) a b -> Forall2 R (concat a) (concat b).
Proof.
  induction 1 as [|x y a b Rxy F IH]; simpl.
  - constructor.
  - now apply Forall2_app.
Qed.

Lemma zip_with_diag {A C : Type} (h : A -> A -> C) (l : list A) :
  Metrics.zip_with h l l = map (fun x => h x x) l.
Proof.
  induction l as [|x l IH]; simpl; [reflexivity | now rewrite IH].
Qed.

(* ------------------------------------------------------------------ *)
(** ** The IoU metric *)

Module MetricsFacts.

Import Metrics Examples.
Local Open Scope Z_scope.

Lemma In_insert_unique (x v : Z) (l : list Z) :
  In v (insert_unique x l) <-> v = x \/ In v l.
Proof.
  induction l as [|y l IH]; simpl.
  - intuition.
  - destruct (Z.ltb_spec x y).
    + simpl. intuition.
    + destruct (Z.eqb_spec x y).
      * subst. simpl. intuition.
      * simpl. rewrite IH. intuition.
Qed.

Lemma In_unique (t : tensor3 Z) (v : Z) :
  In v (unique t) <-> In v (flatten3 t).
Proof.
  unfold unique. induction (flatten3 t) as [|x l IH]; simpl.
  - tauto.
  - rewrite In_insert_unique, IH. intuition.
Qed.




Lemma In_scored_classes (t : tensor3 Z) (c : Z) :
  In c (scored_classes t) <-> In c (flatten3 t) /\ c <> 0.
Proof.
  unfold scored_classes. rewrite filter_In, In_unique.
  destruct (Z.eqb_spec c 0); simpl; intuition congruence.
Qed.

Lemma zip_strict_length {A B C : Type} (op : A -> B -> C) (a : list A) (b : list B) :
  length a = length b ->
  zip_strict (fun x y => Some (op x y)) a b = Some (zip_with op a b).
Proof.
  revert b. induction a as [|x a IH]; intros [|y b] L; simpl in *;
    try discriminate; try reflexivity.
  rewrite IH; [reflexivity | now injection L].
Qed.

Lemma elementwise3_same_shape {A B C : Type} (op : A -> B -> C)
  (a : tensor3 A) (b : tensor3 B) :
  same_shape a b ->
  elementwise3 op a b = Some (zip_with (zip_with (zip_with op)) a b).
Proof.
  intros S. unfold elementwise3.
  apply zip_strict_Forall2
    with (R := Forall2 (fun (r : list A) (r' : list B) => length r = length r')).
  - exact S.
  - intros x y Hxy.
    apply zip_strict_Forall2
      with (R := fun (r : list A) (r' : list B) => length r = length r').
    + exact Hxy.
    + intros r r' L. now apply zip_strict_length.
Qed.

Lemma flatten3_zip_with {A B C : Type} (op : A -> B -> C)
  (a : tensor3 A) (b : tensor3 B) :
  same_shape a b ->
  flatten3 (zip_with (zip_with (zip_with op)) a b)
  = zip_with op (flatten3 a) (flatten3 b).
Proof.
  intros S. unfold flatten3.
  rewrite concat_zip_with.
  - apply concat_zip_with. now apply Forall2_concat.
  - eapply Forall2_impl; [|exact S].
    intros x y F. now apply Forall2_length in F.
Qed.

Lemma flatten3_map3 {A B : Type} (f : A -> B) (t : tensor3 A) :
  flatten3 (map3 f t) = map f (flatten3 t).
Proof.
  unfold flatten3, map3. now rewrite <- !concat_map.
Qed.

Lemma same_shape_map3 {A B A' B' : Type} (f : A -> A') (g : B -> B')
  (a : tensor3 A) (b : tensor3 B) :
  same_shape a b -> same_shape (map3 f a) (map3 g b).
Proof.
  unfold same_shape, map3.
  induction 1 as [|x y a b Hxy F IH]; simpl; constructor; [|exact IH].
  clear - Hxy. induction Hxy as [|r r' x y L F IH]; simpl; constructor.
  - now rewrite !length_map.
  - exact IH.
Qed.

Lemma same_shape_refl {A : Type} (a : tensor3 A) : same_shape a a.
Proof.
  unfold same_shape. induction a as [|x a IH]; constructor; [|exact IH].
  induction x as [|r x IHx]; constructor; [reflexivity | exact IHx].
Qed.

Lemma same_shape_flatten_length {A B : Type} (a : tensor3 A) (b : tensor3 B) :
  same_shape a b -> length (flatten3 a) = length (flatten3 b).
Proof.
  intros S. apply Forall2_concat in S. unfold flatten3.
  induction S as [|x y l l' L F IH]; simpl.
  - reflexivity.
  - rewrite !length_app. congruence.
Qed.

(** Counting the [True] cells of element-wise [|] and [&]. *)
Lemma count_or_ge (p t : list bool) :
  length p = length t ->
  (count_occ bool_dec t true <= count_occ bool_dec (zip_with orb p t) true)%nat.
Proof.
  revert t. induction p as [|x p IH]; intros [|y t] L; simpl in *;
    try discriminate; try lia.
  injection L as L. specialize (IH t L).
  destruct x, y; simpl; lia.
Qed.

Lemma count_and_le_or (p t : list bool) :
  (count_occ bool_dec (zip_with andb p t) true
   <= count_occ bool_dec (zip_with orb p t) true)%nat.
Proof.
  revert t. induction p as [|x p IH]; intros [|y t]; simpl; try lia.
  specialize (IH t). destruct x, y; simpl; lia.
Qed.

Lemma count_class_pos (c : Z) (l : list Z) :
  In c l -> (0 < count_occ bool_dec (map (fun v => Z.eqb v c) l) true)%nat.
Proof.
  intros H. apply count_occ_In. apply in_map_iff. exists c.
  split; [apply Z.eqb_refl | exact H].
Qed.

(** The masks built by [_class_iou] on tensors of one shape. *)
Lemma class_masks (predicted_image y_true : tensor3 Z) (c : Z) :
  same_shape predicted_image y_true ->
  let p := map (fun v => v =? c) (flatten3 predicted_image) in
  let t := map (fun v => v =? c) (flatten3 y_true) in
  exists intersection union,
    elementwise3 andb (map3 (fun v => v =? c) predicted_image)
      (map3 (fun v => v =? c) y_true) = Some intersection /\
    elementwise3 orb (map3 (fun v => v =? c) predicted_image)
      (map3 (fun v => v =? c) y_true) = Some union /\
    flatten3 intersection = zip_with andb p t /\
    flatten3 union = zip_with orb p t.
Proof.
  intros S p t.
  pose proof (same_shape_map3 (fun v => v =? c) (fun v => v =? c) S) as S'.
  do 2 eexists. repeat split.
  - now apply elementwise3_same_shape.
  - now apply elementwise3_same_shape.
  - rewrite flatten3_zip_with by exact S'. now rewrite !flatten3_map3.
  - rewrite flatten3_zip_with by exact S'. now rewrite !flatten3_map3.
Qed.

Lemma fdiv_count_unit_interval (a b : Z) :
  0 <= a <= b -> 0 < b ->
  exists q, fdiv_count a b = FNum q /\ (0 <= q)%Q /\ (q <= 1)%Q.
Proof.
  intros [Ha Hab] Hb. unfold fdiv_count.
  destruct (Z.eqb_spec b 0); [lia|].
  eexists. split; [reflexivity|].
  assert (Hb' : (0 < inject_Z b)%Q).
  { change 0%Q with (inject_Z 0). rewrite <- Zlt_Qlt. exact Hb. }
  split.
  - apply Qle_shift_div_l; [exact Hb'|].
    rewrite Qmult_0_l. change 0%Q with (inject_Z 0).
    rewrite <- Zle_Qle. exact Ha.
  - apply Qle_shift_div_r; [exact Hb'|].
    rewrite Qmult_1_l. rewrite <- Zle_Qle. exact Hab.
Qed.

Lemma fdiv_count_same (a : Z) :
  0 < a -> exists q, fdiv_count a a = FNum q /\ (q == 1)%Q.
Proof.
  intros Ha. unfold fdiv_count.
  destruct (Z.eqb_spec a 0); [lia|].
  eexists. split; [reflexivity|].
  apply Qmult_inv_r. intros E.
  assert (inject_Z a == inject_Z 0)%Q by exact E.
  rewrite inject_Z_injective in H. lia.
Qed.

Lemma fold_fadd_ones (l : list fval) (s : Q) :
  Forall (fun v => exists q, v = FNum q /\ (q == 1)%Q) l ->
  exists s', fold_left fadd l (FNum s) = FNum s' /\
             (s' == s + inject_Z (Z.of_nat (length l)))%Q.
Proof.
  intros F. revert s. induction F as [|v l [q [-> Hq]] F IH]; intros s; simpl.
  - exists s. split; [reflexivity|]. unfold inject_Z. ring.
  - destruct (IH (s + q)%Q) as [s' [E Hs']].
    exists s'. split; [exact E|].
    rewrite Hs', Hq. rewrite Zpos_P_of_succ_nat, <- Z.add_1_r, inject_Z_plus.
    ring.
Qed.

Lemma np_mean_ones (l : list fval) :
  l <> [] ->
  Forall (fun v => exists q, v = FNum q /\ (q == 1)%Q) l ->
  exists q, np_mean l = FNum q /\ (q == 1)%Q.
Proof.
  intros NE F. destruct l as [|v l]; [congruence|].
  unfold np_mean.
  destruct (fold_fadd_ones 0 F) as [s [E Hs]]. rewrite E.
  eexists. split; [reflexivity|].
  rewrite Hs, Qplus_0_l. apply Qmult_inv_r.
  intros E'.
  assert (H : (inject_Z (Z.of_nat (length (v :: l))) == inject_Z 0)%Q) by exact E'.
  rewrite inject_Z_injective in H. simpl in H. lia.
Qed.

Lemma argmax_dim1_total (y_pred : tensor4 Q) :
  Forall (fun sample => sample <> []) y_pred ->
  exists predicted_image, argmax_dim1 y_pred = Some predicted_image.
Proof.
  intros F. unfold argmax_dim1.
  destruct (@mapM_Forall _ _ argmax_sample (fun _ => True) y_pred) as [r [E _]].
  - intros s Hs. rewrite Forall_forall in F. specialize (F s Hs).
    destruct s as [|p0 ps]; [congruence|]. simpl. eauto.
  - eauto.
Qed.

Lemma scored_classes_background_only (y_true : tensor3 Z) :
  (forall v, In v (flatten3 y_true) -> v = 0) ->
  scored_classes y_true = [].
Proof.
  intros H. destruct (scored_classes y_true) as [|c l] eqn:E; [reflexivity|].
  assert (Hc : In c (scored_classes y_true)) by (rewrite E; now left).
  apply In_scored_classes in Hc. destruct Hc as [Hc Hn].
  now apply H in Hc.
Qed.

Lemma class_iou_perfect (y_true : tensor3 Z) (c : Z) :
  In c (flatten3 y_true) ->
  exists q, _class_iou y_true y_true c = Some (FNum q) /\ (q == 1)%Q.
Proof.
  intros Hc. unfold _class_iou.
  destruct (class_masks c (same_shape_refl y_true))
    as [intersection [union [Ei [Eu [Fi Fu]]]]].
  rewrite Ei, Eu. simpl. unfold mask_sum.
  rewrite Fi, Fu, !zip_with_diag.
  rewrite (map_ext _ (fun b => b) andb_diag), (map_ext _ (fun b => b) orb_diag).
  rewrite map_id.
  pose proof (count_class_pos c (flatten3 y_true) Hc) as Hpos.
  destruct (@fdiv_count_same
              (Z.of_nat (count_occ bool_dec
                           (map (fun v => v =? c) (flatten3 y_true)) true)))
    as [q [Eq Hq]]; [lia|].
  exists q. now rewrite Eq.
Qed.

(** C4.  When the ground-truth labels hold only the background value 0 and
    every sample of the score tensor has at least one class channel, [iou]
    raises nothing and returns not-a-number: no class is scored and the
    mean of the empty list of scores is NaN. *)
Theorem iou_background_only_is_nan (y_true : tensor3 Z) (y_pred : tensor4 Q) :
  (forall v, In v (flatten3 y_true) -> v = 0) ->
  Forall (fun sample => sample <> []) y_pred ->
  iou y_true y_pred = Some FNaN.
Proof.
  intros Hbg Hch. unfold iou.
  destruct (argmax_dim1_total Hch) as [predicted_image ->]. simpl.
  fold (scored_classes y_true).
  now rewrite (scored_classes_background_only y_true Hbg).
Qed.

Lemma iou_background_only_is_nan_witness :
  iou background_only_labels two_class_scores = Some FNaN.
Proof.
  apply iou_background_only_is_nan.
  - simpl. intuition.
  - repeat constructor. discriminate.
Defined.










(** C6.  When the distinct values of the ground-truth labels are exactly 0,
    1 and 2 and the arg-max of the scores over the class channel is the
    ground truth itself, [iou] returns the number 1. *)
Theorem iou_perfect_prediction_is_one (y_true : tensor3 Z) (y_pred : tensor4 Q) :
  (forall v, In v (flatten3 y_true) <-> v = 0 \/ v = 1 \/ v = 2) ->
  argmax_dim1 y_pred = Some y_true ->
  exists q, iou y_true y_pred = Some (FNum q) /\ (q == 1)%Q.
Proof.
  intros Hvals Harg. unfold iou. rewrite Harg. simpl.
  fold (scored_classes y_true).
  destruct (@mapM_Forall _ _ (_class_iou y_true y_true)
              (fun v => exists q, v = FNum q /\ (q == 1)%Q)
              (scored_classes y_true)) as [scores [E [F L]]].
  - intros c Hc. apply In_scored_classes in Hc. destruct Hc as [Hc _].
    destruct (class_iou_perfect y_true c Hc) as [q [Eq Hq]].
    exists (FNum q). split; [exact Eq|]. now exists q.
  - rewrite E. simpl.
    destruct (@np_mean_ones scores) as [q [Eq Hq]].
    + intros ->. simpl in L.
      assert (H1 : In 1 (scored_classes y_true)).
      { apply In_scored_classes. split; [apply Hvals; tauto | lia]. }
      destruct (scored_classes y_true); [contradiction | discriminate].
    + exact F.
    + exists q. now rewrite Eq.
Qed.

Lemma iou_perfect_prediction_is_one_witness :
  exists q, iou three_class_labels three_class_scores = Some (FNum q) /\
            (q == 1)%Q.
Proof.
  apply iou_perfect_prediction_is_one.
  - intros v. vm_compute. intuition.
  - vm_compute. reflexivity.
Defined.

End MetricsFacts.

(* ------------------------------------------------------------------ *)
(** ** Resizing, cropping and flipping *)

Module DataFacts.

Import Data Examples.
Local Open Scope nat_scope.

Lemma nearest_index_lt (n_in n_out i : nat) :
  0 < n_in -> i < n_out -> nearest_index n_in n_out i < n_in.
Proof.
  intros Hin Hi. unfold nearest_index.
  apply Nat.Div0.div_lt_upper_bound. nia.
Qed.

Lemma rect_row_length {A : Type} (a : array2 A) (r : nat) (row : list A) :
  rect a -> nth_error a r = Some row -> length row = width a.
Proof.
  intros R E. unfold rect in R. rewrite Forall_forall in R.
  apply R. eapply nth_error_In. exact E.
Qed.

Lemma pixel_at_Some {A : Type} (a : array2 A) (r c : nat) :
  rect a -> r < height a -> c < width a ->
  exists v, pixel_at a r c = Some v.
Proof.
  intros R Hr Hc. unfold pixel_at, height in *.
  destruct (nth_error a r) as [row|] eqn:E.
  - pose proof (rect_row_length r R E) as L.
    destruct (nth_error row c) as [v|] eqn:E'; [eauto|].
    apply nth_error_None in E'. lia.
  - apply nth_error_None in E. lia.
Qed.

Lemma pixel_at_In {A : Type} (a : array2 A) (r c : nat) (v : A) :
  pixel_at a r c = Some v -> In v (values a).
Proof.
  unfold pixel_at, values. destruct (nth_error a r) as [row|] eqn:E; [|discriminate].
  intros E'. apply in_concat. exists row.
  split; eapply nth_error_In; eassumption.
Qed.

Lemma pixel_at_nth {A : Type} (zero : A) (a : array2 A) (r c : nat) (v : A) :
  pixel_at a r c = Some v -> nth c (nth r a []) zero = v.
Proof.
  unfold pixel_at. destruct (nth_error a r) as [row|] eqn:E; [|discriminate].
  intros E'. rewrite (nth_error_nth a r [] E). now apply nth_error_nth.
Qed.

(** What [gather] puts in each output cell. *)
Lemma pixel_at_gather {A : Type} (zero : A) (a : array2 A)
  (row_of col_of : nat -> nat) (out_h out_w r c : nat) :
  r < out_h -> c < out_w ->
  pixel_at (gather zero a row_of col_of out_h out_w) r c
  = Some (nth (col_of c) (nth (row_of r) a []) zero).
Proof.
  intros Hr Hc. unfold pixel_at, gather.
  rewrite nth_error_map, nth_error_seq.
  destruct (Nat.ltb_spec r out_h); [|lia]. simpl.
  rewrite nth_error_map, nth_error_seq.
  destruct (Nat.ltb_spec c out_w); [|lia]. reflexivity.
Qed.

Lemma gather_height {A : Type} (zero : A) (a : array2 A)
  (row_of col_of : nat -> nat) (out_h out_w : nat) :
  height (gather zero a row_of col_of out_h out_w) = out_h.
Proof. unfold height, gather. now rewrite length_map, length_seq. Qed.

Lemma gather_rows {A : Type} (zero : A) (a : array2 A)
  (row_of col_of : nat -> nat) (out_h out_w : nat) :
  Forall (fun row => length row = out_w)
    (gather zero a row_of col_of out_h out_w).
Proof.
  unfold gather. apply Forall_forall. intros row H.
  apply in_map_iff in H. destruct H as [i [<- _]].
  now rewrite length_map, length_seq.
Qed.

Lemma gather_width {A : Type} (zero : A) (a : array2 A)
  (row_of col_of : nat -> nat) (out_h out_w : nat) :
  0 < out_h ->
  width (gather zero a row_of col_of out_h out_w) = out_w.
Proof.
  intros H. pose proof (gather_rows zero a row_of col_of out_h out_w) as F.
  pose proof (gather_height zero a row_of col_of out_h out_w) as L.
  unfold width, height in *.
  destruct (gather zero a row_of col_of out_h out_w) as [|row rest].
  - simpl in L. lia.
  - now inversion F.
Qed.

Lemma gather_square_size {A : Type} (zero : A) (a : array2 A)
  (row_of col_of : nat -> nat) (n : nat) :
  size (gather zero a row_of col_of n n) = (n, n).
Proof.
  unfold size. rewrite gather_height. f_equal.
  destruct n as [|n]; [reflexivity|]. apply gather_width. lia.
Qed.

Lemma values_gather {A : Type} (zero : A) (a : array2 A)
  (row_of col_of : nat -> nat) (out_h out_w : nat) (v : A) :
  In v (values (gather zero a row_of col_of out_h out_w)) ->
  exists i j, i < out_h /\ j < out_w /\
              v = nth (col_of j) (nth (row_of i) a []) zero.
Proof.
  unfold values, gather. intros H.
  apply in_concat in H. destruct H as [row [Hrow Hv]].
  apply in_map_iff in Hrow. destruct Hrow as [i [<- Hi]].
  apply in_map_iff in Hv. destruct Hv as [j [<- Hj]].
  apply in_seq in Hi. apply in_seq in Hj.
  exists i, j. repeat split; lia.
Qed.

(** Nearest-neighbour gathering with in-range index maps only copies cells
    of the input, whatever the rounding convention of the index maps. *)
Lemma gather_in_range_values {A : Type} (zero : A) (a : array2 A)
  (row_of col_of : nat -> nat) (out_h out_w : nat) :
  rect a ->
  (forall i, i < out_h -> row_of i < height a) ->
  (forall j, j < out_w -> col_of j < width a) ->
  incl (values (gather zero a row_of col_of out_h out_w)) (values a).
Proof.
  intros R Hrow Hcol v H.
  apply values_gather in H. destruct H as [i [j [Hi [Hj ->]]]].
  destruct (pixel_at_Some R (Hrow i Hi) (Hcol j Hj)) as [x E].
  rewrite (pixel_at_nth zero _ _ _ E).
  eapply pixel_at_In. exact E.
Qed.

Lemma astype_uint8_in_range (a : array2 Z) :
  (forall v, In v (values a) -> (0 <= v < 256)%Z) ->
  astype_uint8 a = a.
Proof.
  unfold astype_uint8, values. induction a as [|row a IH]; intros H; simpl.
  - reflexivity.
  - f_equal.
    + rewrite <- (map_id row) at 2. apply map_ext_in. intros v Hv.
      apply Z.mod_small. apply H. simpl. apply in_or_app. now left.
    + apply IH. intros v Hv. apply H. simpl. apply in_or_app. now right.
Qed.

Lemma resize_nearest_spec (a : array2 Z) (out_h out_w : nat) :
  rect a -> a <> [] -> width a <> 0 ->
  exists out,
    resize_nearest a out_h out_w = Some out /\
    height out = out_h /\
    Forall (fun row => length row = out_w) out /\
    incl (values out) (values a).
Proof.
  intros R NE W. unfold resize_nearest.
  assert (H : 0 < height a) by (destruct a; [congruence | simpl; lia]).
  destruct (Nat.eqb_spec (height a) 0); [lia|].
  destruct (Nat.eqb_spec (width a) 0); [lia|]. simpl.
  eexists. split; [reflexivity|]. split; [apply gather_height|].
  split; [apply gather_rows|].
  apply gather_in_range_values; [exact R | |];
    intros i Hi; apply nearest_index_lt; lia.
Qed.

Lemma hflip_size {A : Type} (img : pil A) : size (hflip img) = size img.
Proof.
  unfold size, hflip, height, width. rewrite length_map.
  destruct img as [|row rest]; simpl; [reflexivity|].
  now rewrite length_rev.
Qed.

Lemma randint_range (low high v : nat) (g g' : rng) :
  randint low high g = Some (v, g') -> low <= v < high.
Proof.
  unfold randint. destruct (Nat.leb_spec high low); [discriminate|].
  unfold bind, next_raw, ret. intros E. injection E as <- _.
  assert (L : (tape g (used g) mod N.of_nat (high - low)
               < N.of_nat (high - low))%N) by (apply N.mod_lt; lia).
  remember (tape g (used g) mod N.of_nat (high - low))%N as m. lia.
Qed.

Lemma randint_returns (low high : nat) (g : rng) :
  low < high -> exists v g', randint low high g = Some (v, g').
Proof.
  intros H. unfold randint. destruct (Nat.leb_spec high low); [lia|].
  unfold bind, next_raw, ret. eauto.
Qed.

(** The crop window drawn by [get_params] has the requested size and lies
    inside the image. *)
Lemma get_params_fits {A : Type} (img : pil A) (th tw : nat) (g g' : rng)
  (i j h w : nat) :
  get_params img (th, tw) g = Some ((i, j, h, w), g') ->
  h = th /\ w = tw /\ i + h <= height img /\ j + w <= width img.
Proof.
  unfold get_params, size.
  destruct (Nat.ltb_spec (height img) th); [discriminate|].
  destruct (Nat.ltb_spec (width img) tw); [discriminate|]. simpl.
  destruct (Nat.eqb_spec (width img) tw); simpl.
  - destruct (Nat.eqb_spec (height img) th); simpl.
    + unfold ret. intros E. injection E as <- <- <- <- _. lia.
    + unfold bind.
      destruct (randint 0 (height img - th + 1) g) as [[i0 g0]|] eqn:Ei;
        [|discriminate].
      destruct (randint 0 (width img - tw + 1) g0) as [[j0 g1]|] eqn:Ej;
        [|discriminate].
      unfold ret. intros E. injection E as <- <- <- <- _.
      apply randint_range in Ei, Ej. lia.
  - unfold bind.
    destruct (randint 0 (height img - th + 1) g) as [[i0 g0]|] eqn:Ei;
      [|discriminate].
    destruct (randint 0 (width img - tw + 1) g0) as [[j0 g1]|] eqn:Ej;
      [|discriminate].
    unfold ret. intros E. injection E as <- <- <- <- _.
    apply randint_range in Ei, Ej. lia.
Qed.

Lemma get_params_returns {A : Type} (img : pil A) (th tw : nat) (g : rng) :
  th <= height img -> tw <= width img ->
  exists i j g', get_params img (th, tw) g = Some ((i, j, th, tw), g').
Proof.
  intros Hh Hw. unfold get_params, size.
  destruct (Nat.ltb_spec (height img) th); [lia|].
  destruct (Nat.ltb_spec (width img) tw); [lia|]. simpl.
  assert (R : exists i j g',
             (i <- randint 0 (height img - th + 1) ;;
              j <- randint 0 (width img - tw + 1) ;;
              ret (i, j, th, tw))%rand g = Some ((i, j, th, tw), g')).
  { unfold bind.
    destruct (@randint_returns 0 (height img - th + 1) g) as [i [g0 Ei]]; [lia|].
    destruct (@randint_returns 0 (width img - tw + 1) g0) as [j [g1 Ej]]; [lia|].
    rewrite Ei, Ej. unfold ret. eauto. }
  destruct (Nat.eqb_spec (width img) tw); simpl; [|exact R].
  destruct (Nat.eqb_spec (height img) th); simpl; [|exact R].
  subst. unfold ret. eauto.
Qed.

(** A crop window inside the image copies the cells it covers. *)
Lemma pixel_at_crop {A : Type} (zero : A) (img : pil A)
  (top left new_height new_width r c : nat) (v : A) :
  r < new_height -> c < new_width ->
  pixel_at img (top + r) (left + c) = Some v ->
  pixel_at (crop zero img top left new_height new_width) r c = Some v.
Proof.
  intros Hr Hc E. unfold crop.
  rewrite pixel_at_gather by assumption.
  f_equal. now apply pixel_at_nth.
Qed.

Lemma brightness_jitter_keeps_size : ColorJitter_keeps_size brightness_jitter.
Proof.
  intros b c s h img g Hb Hc Hs Hh Hh'. unfold brightness_jitter.
  apply Qle_bool_iff in Hb, Hc, Hs, Hh, Hh'.
  rewrite Hb, Hc, Hs, Hh, Hh'. simpl.
  unfold bind, random_random, bind, next_raw, ret. do 2 eexists.
  split; [reflexivity|].
  unfold size, height, width. rewrite length_map.
  destruct img as [|row rest]; simpl; [reflexivity|]. now rewrite length_map.
Qed.

Lemma existsb_eqb_In (s : string) (l : list string) :
  existsb (String.eqb s) l = true <-> In s l.
Proof.
  rewrite existsb_exists. split.
  - intros [x [Hx E]]. apply String.eqb_eq in E. now subst.
  - intros H. exists s. split; [exact H | apply String.eqb_refl].
Qed.

(** *** The label-map resize *)

(** C1, as stated, fails on a 16-bit label map: resizing a map that holds
    only the label 256 returns a map holding the label 0, which the input
    does not contain.  The final cast to [uint8] reduces 256 to 0. *)
Lemma resize_mask_wraps_wide_label :
  exists out,
    _resize_mask wide_mask 1 = Some out /\
    ~ incl (values out) (values wide_mask).
Proof.
  exists [[0%Z]]. split; [reflexivity|].
  intros H. specialize (H 0%Z (or_introl eq_refl)).
  simpl in H. intuition discriminate.
Qed.

(** C1, amended.  For a label map whose values all lie in the 8-bit range
    0..255 and every target size, every value of the output of the
    label-map resize is a value of the input, and the output is a square
    array of the target size: nearest-neighbour selection without
    smoothing copies input cells, and the cast to [uint8] leaves them
    unchanged.  The resize returns whenever the label map is not empty. *)
Theorem resize_mask_preserves_labels (mask : array2 Z) (new_size : nat) :
  rect mask ->
  (forall v, In v (values mask) -> (0 <= v < 256)%Z) ->
  (forall out, _resize_mask mask new_size = Some out ->
     height out = new_size /\
     Forall (fun row => length row = new_size) out /\
     incl (values out) (values mask)) /\
  (mask <> [] -> width mask <> 0 ->
   exists out, _resize_mask mask new_size = Some out).
Proof.
  intros R H8.
  assert (T : mask <> [] -> width mask <> 0 ->
              exists out, _resize_mask mask new_size = Some out /\
                height out = new_size /\
                Forall (fun row => length row = new_size) out /\
                incl (values out) (values mask)).
  { intros NE W.
    destruct (resize_nearest_spec new_size new_size R NE W)
      as [out [E [Hh [Hr Hincl]]]].
    exists out. unfold _resize_mask. rewrite E. simpl.
    rewrite astype_uint8_in_range.
    - repeat split; assumption.
    - intros v Hv. apply H8. now apply Hincl. }
  split.
  - intros out E.
    destruct mask as [|row rest] eqn:Em; [discriminate|].
    destruct (Nat.eq_dec (width (row :: rest)) 0) as [W|W].
    + unfold _resize_mask, resize_nearest in E. rewrite W in E.
      simpl in E. discriminate.
    + destruct (T ltac:(discriminate) W) as [out' [E' P]].
      rewrite E in E'. injection E' as <-. exact P.
  - intros NE W. destruct (T NE W) as [out [E _]]. eauto.
Qed.

Lemma resize_mask_preserves_labels_witness :
  exists out,
    _resize_mask small_mask 5 = Some out /\
    incl (values out) (values small_mask).
Proof.
  assert (R : rect small_mask) by (repeat constructor).
  assert (H8 : forall v, In v (values small_mask) -> (0 <= v < 256)%Z).
  { simpl. intros v H. repeat (destruct H as [<-|H]; [lia|]). contradiction. }
  destruct (resize_mask_preserves_labels 5 R H8) as [Hsub Hret].
  destruct Hret as [out E]; [discriminate | simpl; lia |].
  exists out. split; [exact E|]. now apply Hsub.
Defined.

(** *** The augmentation pipeline *)

Section Augmentation.

Variable ColorJitter : Q -> Q -> Q -> Q -> pil pixel -> M (pil pixel).
Variable skimage_resize :
  array2 pixel -> nat -> nat -> option (array2 (list Q)).

(** C2.  After the colour jitter and the crop, [augment] takes exactly one
    output of the generator, turns it into one uniform value [r], and
    returns the cropped image and the cropped mask both flipped when [r]
    exceeds [h_flipping_chance], both unflipped otherwise. *)
Theorem augment_flip_is_synchronized (self : DataAugmentation)
  (image : pil pixel) (mask : pil Z) (g g' : rng)
  (out_image : pil pixel) (out_mask : pil Z) :
  augment ColorJitter self image mask g = Some ((out_image, out_mask), g') ->
  exists jittered g1 cropped_image cropped_mask g2,
    ColorJitter (brightness_rate self) (contrast_rate self)
      (saturation_rate self) (hue_rate self) image g = Some (jittered, g1) /\
    PairRandomCrop (central_crop_size self) jittered mask g1
    = Some ((cropped_image, cropped_mask), g2) /\
    tape g' = tape g2 /\ used g' = S (used g2) /\
    let r := uniform01 (tape g2 (used g2)) in
    ((h_flipping_chance self < r)%Q ->
       out_image = hflip cropped_image /\ out_mask = hflip cropped_mask) /\
    (~ (h_flipping_chance self < r)%Q ->
       out_image = cropped_image /\ out_mask = cropped_mask).
Proof.
  unfold augment, bind at 1.
  destruct (ColorJitter _ _ _ _ image g) as [[jittered g1]|] eqn:E1;
    [|discriminate].
  unfold bind at 1.
  destruct (PairRandomCrop _ jittered mask g1)
    as [[[cropped_image cropped_mask] g2]|] eqn:E2; [|discriminate].
  unfold random_random, bind, next_raw, ret. intros E.
  exists jittered, g1, cropped_image, cropped_mask, g2.
  split; [reflexivity|]. split; [exact E2|].
  destruct (Qle_bool (uniform01 (tape g2 (used g2))) (h_flipping_chance self))
    eqn:Le; simpl in E; injection E as <- <- <-; simpl;
    (split; [reflexivity|]); (split; [reflexivity|]).
  - apply Qle_bool_iff in Le. split.
    + intros Lt. exfalso. exact (Qlt_not_le _ _ Lt Le).
    + intros _. now split.
  - split.
    + intros _. now split.
    + intros N. exfalso. apply N. apply Qnot_le_lt. intros Le'.
      apply Qle_bool_iff in Le'. congruence.
Qed.

(** C10.  When the image is at least [central_crop_size] high and wide
    (and the jitter rates are in range, so that the colour jitter returns an
    image of the same size), [augment] returns, and the returned image and
    mask both have size [central_crop_size] x [central_crop_size]. *)
Theorem augment_output_size (self : DataAugmentation)
  (image : pil pixel) (mask : pil Z) (g : rng) :
  ColorJitter_keeps_size ColorJitter ->
  valid_rates self ->
  central_crop_size self <= height image ->
  central_crop_size self <= width image ->
  central_crop_size self <= height mask ->
  central_crop_size self <= width mask ->
  exists out_image out_mask g',
    augment ColorJitter self image mask g = Some ((out_image, out_mask), g') /\
    size out_image = (central_crop_size self, central_crop_size self) /\
    size out_mask = (central_crop_size self, central_crop_size self).
Proof.
  intros HCJ [Hb [Hc [Hs [Hh Hh']]]] Hih Hiw _ _.
  destruct (HCJ _ _ _ _ image g Hb Hc Hs Hh Hh') as [jittered [g1 [E1 Sz]]].
  unfold size in Sz. injection Sz as Sw Sh.
  destruct (@get_params_returns _ jittered (central_crop_size self)
              (central_crop_size self) g1) as [i [j [g2 E2]]]; [lia | lia |].
  unfold augment, bind at 1. rewrite E1.
  unfold PairRandomCrop, bind at 1. unfold bind at 1. rewrite E2.
  unfold ret at 1. unfold random_random, bind, next_raw, ret.
  destruct (negb (Qle_bool _ _)); do 3 eexists;
    (split; [reflexivity|]); rewrite ?hflip_size;
    split; apply gather_square_size.
Qed.

(** C7.  Without an augmentation configuration, [_transform] returns the
    normalised tensor of the resized image together with exactly the
    resized mask, and takes nothing from the generator: no jitter, no crop
    and no flip happen.  It raises exactly when one of the two resizes
    does. *)
Theorem transform_without_augmentation (self : DeepFashion2Dataset)
  (image : array2 pixel) (mask : array2 Z) (g : rng) :
  _data_augmentation self = None ->
  _transform ColorJitter skimage_resize self image mask g
  = match _resize_image skimage_resize image (_image_resize self),
          _resize_mask mask (_image_resize self) with
    | Some resized_image, Some resized_mask =>
        Some ((Normalize 0 1 (ToTensor resized_image), resized_mask), g)
    | _, _ => None
    end.
Proof.
  intros HNone. unfold _transform. rewrite HNone.
  unfold bind, lift, ret, to_pil_image, np_array.
  destruct (_resize_image skimage_resize image (_image_resize self));
    simpl; [|reflexivity].
  destruct (_resize_mask mask (_image_resize self)); reflexivity.
Qed.

End Augmentation.

(** C3.  [PairRandomCrop] obtains one window (start_y, start_x, new_height,
    new_width) from [get_params] and crops both the image and the mask with
    it.  The window has the requested size and lies inside the image, so
    every cell of the cropped image is the image cell at the same place in
    the window, and so is every cell of the cropped mask wherever the
    window covers the mask (everywhere, for a mask of the size of the
    image). *)
Theorem pair_random_crop_is_synchronized (image_size : nat)
  (image : pil pixel) (mask : pil Z) (g g' : rng)
  (image' : pil pixel) (mask' : pil Z) :
  rect image ->
  PairRandomCrop image_size image mask g = Some ((image', mask'), g') ->
  exists start_y start_x new_height new_width,
    get_params image (image_size, image_size) g
    = Some ((start_y, start_x, new_height, new_width), g') /\
    image' = crop [] image start_y start_x new_height new_width /\
    mask' = crop 0%Z mask start_y start_x new_height new_width /\
    new_height = image_size /\ new_width = image_size /\
    size image' = (image_size, image_size) /\
    size mask' = (image_size, image_size) /\
    start_y + new_height <= height image /\
    start_x + new_width <= width image /\
    (forall r c, r < new_height -> c < new_width ->
       exists v, pixel_at image (start_y + r) (start_x + c) = Some v /\
                 pixel_at image' r c = Some v) /\
    (forall r c v, r < new_height -> c < new_width ->
       pixel_at mask (start_y + r) (start_x + c) = Some v ->
       pixel_at mask' r c = Some v) /\
    (rect mask -> size mask = size image ->
     forall r c, r < new_height -> c < new_width ->
       exists v, pixel_at mask (start_y + r) (start_x + c) = Some v /\
                 pixel_at mask' r c = Some v).
Proof.
  intros R. unfold PairRandomCrop, bind.
  destruct (get_params image (image_size, image_size) g)
    as [[[[[start_y start_x] new_height] new_width] g1]|] eqn:E; [|discriminate].
  unfold ret. intros E'. injection E' as <- <- <-.
  destruct (get_params_fits _ _ _ _ E) as [-> [-> [Hy Hx]]].
  exists start_y, start_x, image_size, image_size.
  repeat (split; [first [reflexivity | assumption | apply gather_square_size]|]).
  split; [|split].
  - intros r c Hr Hc.
    destruct (@pixel_at_Some _ image (start_y + r) (start_x + c) R)
      as [v Ev]; [lia | lia |].
    exists v. split; [exact Ev|]. now apply pixel_at_crop.
  - intros r c v Hr Hc Ev. now apply pixel_at_crop.
  - intros Rm Sz r c Hr Hc. unfold size in Sz. injection Sz as Sw Sh.
    destruct (@pixel_at_Some _ mask (start_y + r) (start_x + c) Rm)
      as [v Ev]; [lia | lia |].
    exists v. split; [exact Ev|]. now apply pixel_at_crop.
Qed.

(** *** The dataset constructor *)

(** C9.  With a subset tag other than train, validation and test, the
    constructor raises [ValueError] and has touched nothing outside: no
    file was opened and no path was tested. *)
Theorem init_rejects_unknown_subset (fs : filesystem) (path : string)
  (image_resize : nat) (subset : string)
  (data_augmentation : option DataAugmentation) :
  ~ In subset valid_subsets ->
  __init__ fs path image_resize subset data_augmentation
  = ([], inl ValueError).
Proof.
  intros H. unfold __init__.
  destruct (existsb (String.eqb subset) valid_subsets) eqn:E; [|reflexivity].
  apply existsb_eqb_In in E. contradiction.
Qed.

(** *** The theorems above at the example inputs *)

Lemma augment_flip_is_synchronized_witness :
  exists image2 mask2,
    flipped_image = hflip image2 /\ flipped_mask = hflip mask2.
Proof.
  assert (H : augment brightness_jitter flip_often small_image small_mask gen_a
              = Some ((flipped_image, flipped_mask), mkRng tape_a 8))
    by (vm_compute; reflexivity).
  destruct (augment_flip_is_synchronized _ _ _ _ _ H)
    as [jittered [g1 [image2 [mask2 [g2 [E1 [E2 [_ [_ [Hflip _]]]]]]]]]].
  exists image2, mask2.
  vm_compute in E1. injection E1 as <- <-.
  vm_compute in E2. injection E2 as <- <- <-.
  apply Hflip. vm_compute. reflexivity.
Defined.

Lemma pair_random_crop_is_synchronized_witness :
  exists start_y start_x,
    cropped_image = crop [] small_image start_y start_x 2 2 /\
    cropped_mask = crop 0%Z small_mask start_y start_x 2 2.
Proof.
  assert (R : rect small_image) by (repeat constructor).
  assert (H : PairRandomCrop 2 small_image small_mask gen_a
              = Some ((cropped_image, cropped_mask), mkRng tape_a 6))
    by (vm_compute; reflexivity).
  destruct (pair_random_crop_is_synchronized _ _ _ R H)
    as [start_y [start_x [h [w [_ [Ei [Em [-> [-> _]]]]]]]]].
  exists start_y, start_x. split; assumption.
Defined.

Lemma transform_without_augmentation_witness :
  exists tensor,
    _transform brightness_jitter nearest_image_resize plain_dataset
      small_image small_mask gen_a
    = Some ((tensor, [[0; 1]; [0; 13]]%Z), gen_a) /\
    _resize_mask small_mask 2 = Some [[0; 1]; [0; 13]]%Z.
Proof.
  eexists. split; [|reflexivity].
  rewrite (@transform_without_augmentation brightness_jitter
             nearest_image_resize plain_dataset small_image small_mask gen_a
             eq_refl).
  reflexivity.
Defined.

Lemma augment_output_size_witness :
  exists out_image out_mask g',
    augment brightness_jitter crop2 small_image small_mask gen_a
    = Some ((out_image, out_mask), g') /\
    size out_image = (2, 2) /\ size out_mask = (2, 2).
Proof.
  apply (@augment_output_size brightness_jitter crop2 small_image small_mask gen_a).
  - apply brightness_jitter_keeps_size.
  - unfold valid_rates. simpl. repeat split; discriminate.
  - simpl. lia.
  - simpl. lia.
  - simpl. lia.
  - simpl. lia.
Defined.

Lemma init_rejects_unknown_subset_witness :
  __init__ small_fs "full_dataset" 580 "val" None = ([], inl ValueError).
Proof.
  apply init_rejects_unknown_subset.
  simpl. intuition discriminate.
Defined.

End DataFacts.

(* ------------------------------------------------------------------ *)
(** ** More on the IoU metric *)

Module MetricsMore.

Import Metrics Examples MetricsFacts.
Local Open Scope Z_scope.

Lemma mapM_In {A B : Type} (f : A -> option B) (l : list A) (r : list B) (x : A) :
  mapM f l = Some r -> In x l -> exists y, f x = Some y /\ In y r.
Proof.
  revert r. induction l as [|a l IH]; intros r E H; [contradiction|].
  simpl in E. destruct (f a) as [b|] eqn:Fa; [|discriminate].
  destruct (mapM f l) as [r'|]; [|discriminate].
  injection E as <-. destruct H as [->|H].
  - exists b. split; [exact Fa | now left].
  - destruct (IH r' eq_refl H) as [y [Ey Hy]]. exists y. split; [exact Ey | now right].
Qed.

(** The per-class quotient, for a class of the labels and predictions of
    the labels' shape. *)
Lemma class_iou_value (y_true predicted_image : tensor3 Z) (c : Z) :
  same_shape predicted_image y_true ->
  In c (flatten3 y_true) ->
  let p := map (fun v => v =? c) (flatten3 predicted_image) in
  let t := map (fun v => v =? c) (flatten3 y_true) in
  let i := Z.of_nat (count_occ bool_dec (zip_with andb p t) true) in
  let u := Z.of_nat (count_occ bool_dec (zip_with orb p t) true) in
  0 <= i <= u /\ 0 < u /\
  _class_iou predicted_image y_true c = Some (FNum (inject_Z i / inject_Z u)).
Proof.
  intros S Hc p t i u.
  destruct (class_masks c S) as [intersection [union [Ei [Eu [Fi Fu]]]]].
  pose proof (same_shape_flatten_length S) as L.
  pose proof (count_class_pos c (flatten3 y_true) Hc) as Hpos.
  pose proof (@count_or_ge p t) as G. unfold p, t in G.
  rewrite !length_map in G. specialize (G L).
  pose proof (count_and_le_or p t) as Hle.
  assert (Hu : 0 < u) by (unfold u, p, t; lia).
  split; [unfold i, u; lia|]. split; [exact Hu|].
  unfold _class_iou. rewrite Ei, Eu. simpl. unfold mask_sum.
  rewrite Fi, Fu. fold p t i u. unfold fdiv_count.
  destruct (Z.eqb_spec u 0); [lia | reflexivity].
Qed.

Lemma fold_fadd_total (qs : list Q) (s : Q) :
  exists s', fold_left fadd (map FNum qs) (FNum s) = FNum s' /\
             (s' == s + total qs)%Q.
Proof.
  revert s. induction qs as [|q qs IH]; intros s; simpl.
  - exists s. split; [reflexivity | ring].
  - destruct (IH (s + q)%Q) as [s' [E H]]. exists s'.
    split; [exact E | rewrite H; ring].
Qed.

Lemma np_mean_total (qs : list Q) :
  qs <> [] ->
  exists m, np_mean (map FNum qs) = FNum m /\
            (m * inject_Z (Z.of_nat (length qs)) == total qs)%Q.
Proof.
  intros NE. destruct qs as [|q qs]; [congruence|].
  unfold np_mean. cbn [map].
  destruct (fold_fadd_total (q :: qs) 0) as [s [E H]].
  cbn [map] in E. rewrite E.
  eexists. split; [reflexivity|].
  replace (length (FNum q :: map FNum qs)) with (length (q :: qs))
    by (simpl; now rewrite length_map).
  rewrite H. field.
  intros E'.
  assert (H0 : (inject_Z (Z.of_nat (length (q :: qs))) == inject_Z 0)%Q) by exact E'.
  rewrite inject_Z_injective in H0. simpl in H0. lia.
Qed.

Lemma total_bounds (qs : list Q) :
  Forall (fun q => 0 <= q /\ q <= 1)%Q qs ->
  (0 <= total qs)%Q /\ (total qs <= inject_Z (Z.of_nat (length qs)))%Q.
Proof.
  induction 1 as [|q qs [H0 H1] F [IH0 IH1]]; simpl total.
  - split; [apply Qle_refl | apply Qle_refl].
  - split.
    + rewrite <- (Qplus_0_l 0). now apply Qplus_le_compat.
    + change (length (q :: qs)) with (S (length qs)).
      rewrite Nat2Z.inj_succ, <- Z.add_1_l, inject_Z_plus.
      now apply Qplus_le_compat.
Qed.

Lemma mapM_map {A B : Type} (f : A -> option B) (g : A -> B) (l : list A) :
  (forall x, In x l -> f x = Some (g x)) -> mapM f l = Some (map g l).
Proof.
  induction l as [|x l IH]; intros H; simpl; [reflexivity|].
  rewrite (H x (or_introl eq_refl)), IH; [reflexivity|].
  intros y Hy. apply H. now right.
Qed.

(** [iou] as the mean of the per-class ratios of overlap counts. *)
Lemma iou_as_mean (y_true predicted_image : tensor3 Z) (y_pred : tensor4 Q) :
  same_shape predicted_image y_true ->
  argmax_dim1 y_pred = Some predicted_image ->
  iou y_true y_pred
  = Some (np_mean (map FNum (map (ratio_of predicted_image y_true)
                               (scored_classes y_true)))).
Proof.
  intros S E. unfold iou. rewrite E. simpl. fold (scored_classes y_true).
  rewrite (@mapM_map _ _ (_class_iou predicted_image y_true)
             (fun c => FNum (ratio_of predicted_image y_true c))).
  - simpl. now rewrite map_map.
  - intros c Hc. apply In_scored_classes in Hc. destruct Hc as [Hc _].
    destruct (class_iou_value c S Hc) as [_ [_ Ev]]. exact Ev.
Qed.

Lemma overlap_counts_bounds (y_true predicted_image : tensor3 Z) (c : Z) :
  same_shape predicted_image y_true ->
  In c (flatten3 y_true) ->
  0 <= fst (overlap_counts predicted_image y_true c)
    <= snd (overlap_counts predicted_image y_true c) /\
  0 < snd (overlap_counts predicted_image y_true c).
Proof.
  intros S Hc. destruct (class_iou_value c S Hc) as [B [U _]].
  unfold overlap_counts. simpl. split; assumption.
Qed.

Lemma ratio_of_bounds (y_true predicted_image : tensor3 Z) (c : Z) :
  same_shape predicted_image y_true ->
  In c (flatten3 y_true) ->
  (0 <= ratio_of predicted_image y_true c)%Q /\
  (ratio_of predicted_image y_true c <= 1)%Q.
Proof.
  intros S Hc. destruct (overlap_counts_bounds c S Hc) as [B U].
  destruct (fdiv_count_unit_interval B U) as [q [E Hq]].
  unfold fdiv_count in E.
  destruct (Z.eqb_spec (snd (overlap_counts predicted_image y_true c)) 0); [lia|].
  injection E as <-. exact Hq.
Qed.

Lemma positive_length (A : Type) (l : list A) :
  l <> [] -> (0 < inject_Z (Z.of_nat (length l)))%Q.
Proof.
  intros NE. change 0%Q with (inject_Z 0). rewrite <- Zlt_Qlt.
  destruct l; [congruence | simpl; lia].
Qed.

Lemma scored_classes_nonempty (y_true : tensor3 Z) :
  (exists c, In c (flatten3 y_true) /\ c <> 0) -> scored_classes y_true <> [].
Proof.
  intros [c Hc] E. apply In_scored_classes in Hc. rewrite E in Hc. contradiction.
Qed.

Lemma count_and_zero (c : Z) (l l' : list Z) :
  (forall p t, In (p, t) (combine l l') -> t = c -> p <> c) ->
  count_occ bool_dec
    (zip_with andb (map (fun v => v =? c) l) (map (fun v => v =? c) l')) true
  = 0%nat.
Proof.
  revert l'. induction l as [|x l IH]; intros [|y l'] H; simpl; try reflexivity.
  destruct (Z.eqb_spec x c) as [Ex|Ex], (Z.eqb_spec y c) as [Ey|Ey]; simpl;
    try (apply IH; intros p t Hpt; apply H; now right).
  exfalso. exact (H x y (or_introl eq_refl) Ey Ex).
Qed.

Lemma total_zero (qs : list Q) :
  Forall (fun q => q == 0)%Q qs -> (total qs == 0)%Q.
Proof.
  induction 1 as [|q qs Hq F IH]; simpl; [reflexivity|].
  rewrite Hq, IH. ring.
Qed.

(** The score tensor enters [iou] through its arg-max only, and the arg-max
    is unchanged by an order-preserving map of the scores. *)
Lemma zip_with_map {A B C A' B' C' : Type} (g : A' -> B' -> C') (g' : A -> B -> C)
  (a : A -> A') (b : B -> B') (h : C -> C') (l : list A) (l' : list B) :
  (forall x y, g (a x) (b y) = h (g' x y)) ->
  zip_with g (map a l) (map b l') = map h (zip_with g' l l').
Proof.
  intros H. revert l'. induction l as [|x l IH]; intros [|y l']; simpl;
    try reflexivity.
  now rewrite H, IH.
Qed.

Lemma argmax_scan_monotone (f : Q -> Q) (k : Z) (best : list (list (Q * Z)))
  (planes : list (list (list Q))) :
  (forall x y, Qle_bool (f x) (f y) = Qle_bool x y) ->
  argmax_scan k (map (map (fun b => (f (fst b), snd b))) best)
    (map (map (map f)) planes)
  = map (map (fun b => (f (fst b), snd b))) (argmax_scan k best planes).
Proof.
  intros Hf. revert k best. induction planes as [|p ps IH]; intros k best; simpl.
  - reflexivity.
  - rewrite <- IH. f_equal.
    apply zip_with_map. intros row row'.
    apply zip_with_map. intros [q i] x. unfold better. simpl.
    rewrite Hf. now destruct (Qle_bool x q).
Qed.

Lemma argmax_dim1_monotone (f : Q -> Q) (y_pred : tensor4 Q) :
  (forall x y, Qle_bool (f x) (f y) = Qle_bool x y) ->
  argmax_dim1 (map4 f y_pred) = argmax_dim1 y_pred.
Proof.
  intros Hf. unfold argmax_dim1, map4.
  induction y_pred as [|s rest IH]; simpl; [reflexivity|].
  rewrite IH. destruct s as [|p0 ps]; simpl; [reflexivity|].
  replace (map (map (fun x => (x, 0))) (map (map f) p0))
    with (map (map (fun b : Q * Z => (f (fst b), snd b)))
            (map (map (fun x => (x, 0))) p0))
    by (rewrite !map_map; apply map_ext; intros row; now rewrite !map_map).
  rewrite (argmax_scan_monotone f 1 _ ps Hf).
  rewrite map_map.
  replace (map (fun x => map snd (map (fun b : Q * Z => (f (fst b), snd b)) x))
             (argmax_scan 1 (map (map (fun x => (x, 0))) p0) ps))
    with (map (map snd) (argmax_scan 1 (map (map (fun x : Q => (x, 0))) p0) ps))
    by (apply map_ext; intros row; now rewrite map_map).
  reflexivity.
Qed.

Lemma double_preserves_order (x y : Q) :
  Qle_bool (2 * x) (2 * y) = Qle_bool x y.
Proof.
  destruct (Qle_bool x y) eqn:E.
  - apply Qle_bool_iff in E. apply Qle_bool_iff. lra.
  - destruct (Qle_bool (2 * x) (2 * y)) eqn:E'; [|reflexivity].
    apply Qle_bool_iff in E'.
    assert (H : (x <= y)%Q) by lra.
    apply Qle_bool_iff in H. congruence.
Qed.

(** X1.  When the labels hold at least one non-background class, the
    score tensor has an arg-max and the arg-max has the labels' shape,
    [iou] returns a number between 0 and 1. *)
Theorem iou_in_unit_interval (y_true predicted_image : tensor3 Z)
  (y_pred : tensor4 Q) :
  same_shape predicted_image y_true ->
  argmax_dim1 y_pred = Some predicted_image ->
  (exists c, In c (flatten3 y_true) /\ c <> 0) ->
  exists q, iou y_true y_pred = Some (FNum q) /\ (0 <= q)%Q /\ (q <= 1)%Q.
Proof.
  intros S E Hfg. rewrite (iou_as_mean y_pred S E).
  pose proof (@scored_classes_nonempty y_true Hfg) as NE.
  set (qs := map (ratio_of predicted_image y_true) (scored_classes y_true)).
  assert (NE' : qs <> []).
  { unfold qs. destruct (scored_classes y_true); [congruence | discriminate]. }
  assert (B : Forall (fun q => 0 <= q /\ q <= 1)%Q qs).
  { apply Forall_forall. intros q Hq. apply in_map_iff in Hq.
    destruct Hq as [c [<- Hc]]. apply In_scored_classes in Hc.
    apply ratio_of_bounds; [exact S | tauto]. }
  destruct (np_mean_total NE') as [m [Em Hm]].
  destruct (total_bounds B) as [T0 T1].
  pose proof (positive_length NE') as Hn.
  exists m. split; [now rewrite Em|]. split.
  - apply (Qmult_le_r _ _ _ Hn). rewrite Qmult_0_l, Hm. exact T0.
  - apply (Qmult_le_r _ _ _ Hn). rewrite Qmult_1_l, Hm. exact T1.
Qed.

Lemma iou_in_unit_interval_witness :
  exists q, iou partly_right_labels three_class_scores = Some (FNum q) /\
            (0 <= q)%Q /\ (q <= 1)%Q.
Proof.
  apply (@iou_in_unit_interval partly_right_labels [[[0; 1]; [2; 1]]]).
  - repeat constructor.
  - vm_compute. reflexivity.
  - exists 1. split; [simpl; tauto | lia].
Defined.

(** X2.  Whatever the label alphabet, when the labels hold at least one
    non-background class and the arg-max of the scores is the label tensor
    itself, [iou] returns 1. *)
Theorem iou_perfect_prediction_any_alphabet (y_true : tensor3 Z)
  (y_pred : tensor4 Q) :
  argmax_dim1 y_pred = Some y_true ->
  (exists c, In c (flatten3 y_true) /\ c <> 0) ->
  exists q, iou y_true y_pred = Some (FNum q) /\ (q == 1)%Q.
Proof.
  intros E Hfg. pose proof (@scored_classes_nonempty y_true Hfg) as NE.
  unfold iou. rewrite E. simpl. fold (scored_classes y_true).
  destruct (@mapM_Forall _ _ (_class_iou y_true y_true)
              (fun v => exists q, v = FNum q /\ (q == 1)%Q)
              (scored_classes y_true)) as [scores [Es [F L]]].
  - intros c Hc. apply In_scored_classes in Hc. destruct Hc as [Hc _].
    destruct (class_iou_perfect y_true c Hc) as [q [Eq Hq]].
    exists (FNum q). split; [exact Eq | now exists q].
  - rewrite Es. simpl.
    destruct (@np_mean_ones scores) as [q [Eq Hq]].
    + intros ->. destruct (scored_classes y_true); [congruence | discriminate].
    + exact F.
    + exists q. now rewrite Eq.
Qed.

Lemma iou_perfect_prediction_any_alphabet_witness :
  exists q, iou skipped_class_labels four_class_scores = Some (FNum q) /\
            (q == 1)%Q.
Proof.
  apply iou_perfect_prediction_any_alphabet.
  - vm_compute. reflexivity.
  - exists 3. split; [simpl; tauto | lia].
Defined.

(** X3.  For a class of the labels that is never predicted on a cell where
    it is true (predictions of the labels' shape), the per-class IoU is 0. *)
Theorem class_iou_disjoint_is_zero (y_true predicted_image : tensor3 Z) (c : Z) :
  same_shape predicted_image y_true ->
  In c (flatten3 y_true) ->
  (forall p t, In (p, t) (combine (flatten3 predicted_image) (flatten3 y_true)) ->
               t = c -> p <> c) ->
  exists q, _class_iou predicted_image y_true c = Some (FNum q) /\ (q == 0)%Q.
Proof.
  intros S Hc Hd. destruct (class_iou_value c S Hc) as [_ [_ E]].
  rewrite (@count_and_zero c _ _ Hd) in E.
  eexists. split; [exact E|].
  change (inject_Z (Z.of_nat 0)) with 0%Q. unfold Qdiv. apply Qmult_0_l.
Qed.

Lemma class_iou_disjoint_is_zero_witness :
  exists q, _class_iou wrong_prediction sample_labels 2 = Some (FNum q) /\
            (q == 0)%Q.
Proof.
  apply class_iou_disjoint_is_zero.
  - repeat constructor.
  - simpl. tauto.
  - simpl. intros p t H Ht.
    repeat (destruct H as [H|H]; [injection H as <- <-; lia|]). contradiction.
Defined.

(** X4.  When the prediction agrees with the labels on no non-background
    cell (and the labels hold a non-background class), [iou] returns 0. *)
Theorem iou_no_foreground_hit_is_zero (y_true predicted_image : tensor3 Z)
  (y_pred : tensor4 Q) :
  same_shape predicted_image y_true ->
  argmax_dim1 y_pred = Some predicted_image ->
  (exists c, In c (flatten3 y_true) /\ c <> 0) ->
  (forall p t, In (p, t) (combine (flatten3 predicted_image) (flatten3 y_true)) ->
               t <> 0 -> p <> t) ->
  exists q, iou y_true y_pred = Some (FNum q) /\ (q == 0)%Q.
Proof.
  intros S E Hfg Hd. rewrite (iou_as_mean y_pred S E).
  pose proof (@scored_classes_nonempty y_true Hfg) as NE.
  set (qs := map (ratio_of predicted_image y_true) (scored_classes y_true)).
  assert (NE' : qs <> []).
  { unfold qs. destruct (scored_classes y_true); [congruence | discriminate]. }
  assert (Z0 : Forall (fun q => q == 0)%Q qs).
  { apply Forall_forall. intros q Hq. apply in_map_iff in Hq.
    destruct Hq as [c [<- Hc]]. apply In_scored_classes in Hc.
    destruct Hc as [Hc Hn]. unfold ratio_of, overlap_counts. simpl.
    rewrite count_and_zero.
    - change (inject_Z (Z.of_nat 0)) with 0%Q. unfold Qdiv. apply Qmult_0_l.
    - intros p t Hpt ->. intros ->. exact (Hd c c Hpt Hn eq_refl). }
  destruct (np_mean_total NE') as [m [Em Hm]].
  pose proof (positive_length NE') as Hn.
  exists m. split; [now rewrite Em|].
  rewrite (total_zero Z0) in Hm.
  destruct (Qmult_integral _ _ Hm) as [H|H]; [exact H|].
  rewrite H in Hn. exfalso. exact (Qlt_irrefl _ Hn).
Qed.

Lemma iou_no_foreground_hit_is_zero_witness :
  exists q, iou sample_labels wrong_scores = Some (FNum q) /\ (q == 0)%Q.
Proof.
  apply (@iou_no_foreground_hit_is_zero sample_labels wrong_prediction).
  - repeat constructor.
  - vm_compute. reflexivity.
  - exists 1. split; [simpl; tauto | lia].
  - simpl. intros p t H Ht.
    repeat (destruct H as [H|H]; [injection H as <- <-; lia|]). contradiction.
Defined.

(** X6.  [iou] is unchanged when every score is sent through the same
    order-preserving map (a positive rescaling, a shift, logits against
    probabilities): only the order of the scores at each cell matters. *)
Theorem iou_invariant_under_order_preserving_map (f : Q -> Q)
  (y_true : tensor3 Z) (y_pred : tensor4 Q) :
  (forall x y, Qle_bool (f x) (f y) = Qle_bool x y) ->
  iou y_true (map4 f y_pred) = iou y_true y_pred.
Proof.
  intros Hf. unfold iou. now rewrite (argmax_dim1_monotone f y_pred Hf).
Qed.

Lemma iou_invariant_under_order_preserving_map_witness :
  iou partly_right_labels (map4 (Qmult 2) three_class_scores)
  = iou partly_right_labels three_class_scores.
Proof.
  apply iou_invariant_under_order_preserving_map.
  exact double_preserves_order.
Defined.

End MetricsMore.

(* ------------------------------------------------------------------ *)
(** ** More on resizing and cropping *)

Module DataMore.

Import Data Examples DataFacts.
Local Open Scope nat_scope.

Lemma map_nth_seq {A : Type} (zero : A) (row : list A) :
  map (fun j => nth j row zero) (seq 0 (length row)) = row.
Proof.
  induction row as [|x row IH]; simpl; [reflexivity|].
  f_equal. rewrite <- seq_shift, map_map. exact IH.
Qed.

Lemma gather_identity {A : Type} (zero : A) (a : array2 A) (w : nat) :
  Forall (fun row => length row = w) a ->
  gather zero a (fun i => i) (fun j => j) (length a) w = a.
Proof.
  unfold gather. induction 1 as [|row a L F IH]; simpl; [reflexivity|].
  f_equal.
  - rewrite <- L. apply map_nth_seq.
  - rewrite <- seq_shift, map_map. exact IH.
Qed.

Lemma gather_ext {A : Type} (zero : A) (a : array2 A)
  (row_of row_of' col_of col_of' : nat -> nat) (out_h out_w : nat) :
  (forall i, i < out_h -> row_of i = row_of' i) ->
  (forall j, j < out_w -> col_of j = col_of' j) ->
  gather zero a row_of col_of out_h out_w
  = gather zero a row_of' col_of' out_h out_w.
Proof.
  intros Hr Hc. unfold gather. apply map_ext_in. intros i Hi.
  apply in_seq in Hi. rewrite Hr by lia.
  apply map_ext_in. intros j Hj. apply in_seq in Hj. now rewrite Hc by lia.
Qed.

Lemma rect_rows {A : Type} (a : array2 A) :
  rect a -> Forall (fun row => length row = width a) a.
Proof. exact (fun H => H). Qed.

Lemma rows_rect {A : Type} (a : array2 A) (w : nat) :
  Forall (fun row => length row = w) a -> rect a.
Proof.
  intros F. unfold rect. destruct a as [|row rest]; [constructor|].
  simpl. inversion F as [|? ? L F']; subst.
  constructor; [reflexivity|]. exact F'.
Qed.

(** The nearest input cell under an integer magnification [k]. *)
Lemma nearest_index_upscale (n k i : nat) :
  0 < n -> 0 < k -> nearest_index n (k * n) i = i / k.
Proof.
  intros Hn Hk. unfold nearest_index.
  replace (2 * (k * n)) with ((2 * k) * n) by lia.
  rewrite Nat.Div0.div_mul_cancel_r by lia.
  symmetry. apply Nat.div_unique with (r := 2 * (i mod k) + 1).
  - pose proof (Nat.mod_upper_bound i k). lia.
  - pose proof (Nat.div_mod_eq i k). nia.
Qed.

Lemma nearest_index_same_size (n i : nat) :
  0 < n -> nearest_index n n i = i.
Proof.
  intros Hn. rewrite <- (Nat.mul_1_l n) at 2.
  rewrite nearest_index_upscale by lia. apply Nat.div_1_r.
Qed.

Lemma values_astype_uint8 (a : array2 Z) (v : Z) :
  In v (values (astype_uint8 a)) ->
  exists u, In u (values a) /\ v = (u mod 256)%Z.
Proof.
  unfold values, astype_uint8. intros H.
  apply in_concat in H. destruct H as [row [Hrow Hv]].
  apply in_map_iff in Hrow. destruct Hrow as [row0 [<- Hrow0]].
  apply in_map_iff in Hv. destruct Hv as [u [<- Hu]].
  exists u. split; [|reflexivity]. apply in_concat. now exists row0.
Qed.

Lemma pixel_at_astype_uint8 (a : array2 Z) (r c : nat) :
  pixel_at (astype_uint8 a) r c
  = option_map (fun v => (v mod 256)%Z) (pixel_at a r c).
Proof.
  unfold pixel_at, astype_uint8. rewrite nth_error_map.
  destruct (nth_error a r) as [row|]; simpl; [|reflexivity].
  now rewrite nth_error_map.
Qed.

Lemma pixel_at_None_nth {A : Type} (zero : A) (a : array2 A) (r c : nat) :
  pixel_at a r c = None -> nth c (nth r a []) zero = zero.
Proof.
  unfold pixel_at. destruct (nth_error a r) as [row|] eqn:E.
  - intros E'. rewrite (nth_error_nth a r [] E).
    apply nth_overflow. now apply nth_error_None.
  - intros _. apply nth_error_None in E. rewrite (nth_overflow a [] E).
    now destruct c.
Qed.

Lemma square_width {A : Type} (a : array2 A) (n : nat) :
  height a = n -> Forall (fun row => length row = n) a -> width a = n.
Proof.
  intros H F. destruct a as [|row rest]; simpl in *; [exact H|].
  now inversion F.
Qed.

Lemma resize_nearest_returns_inv (a : array2 Z) (out_h out_w : nat)
  (out : array2 Z) :
  resize_nearest a out_h out_w = Some out -> a <> [] /\ width a <> 0.
Proof.
  unfold resize_nearest.
  destruct (Nat.eqb_spec (height a) 0) as [H|H]; [discriminate|].
  destruct (Nat.eqb_spec (width a) 0) as [W|W]; [discriminate|].
  intros _. split; [|exact W]. intros ->. now apply H.
Qed.

(** X7.  Resizing a square 8-bit label map to the size it already has
    returns the label map itself. *)
Theorem resize_mask_same_size_is_identity (mask : array2 Z) (n : nat) :
  mask <> [] ->
  height mask = n ->
  Forall (fun row => length row = n) mask ->
  (forall v, In v (values mask) -> (0 <= v < 256)%Z) ->
  _resize_mask mask n = Some mask.
Proof.
  intros NE H F H8.
  assert (Hn : 0 < n) by (destruct mask; [congruence | simpl in H; lia]).
  pose proof (square_width H F) as W.
  unfold _resize_mask, resize_nearest. rewrite H, W.
  destruct (Nat.eqb_spec n 0); [lia|]. simpl. f_equal.
  rewrite (@gather_ext _ 0%Z mask _ (fun i => i) _ (fun j => j) n n)
    by (intros i Hi; now apply nearest_index_same_size).
  rewrite <- H at 1. unfold height. rewrite (gather_identity 0%Z F).
  now apply astype_uint8_in_range.
Qed.

Lemma resize_mask_same_size_is_identity_witness :
  _resize_mask square_mask 2 = Some square_mask.
Proof.
  apply resize_mask_same_size_is_identity.
  - discriminate.
  - reflexivity.
  - repeat constructor.
  - simpl. intros v H. repeat (destruct H as [<-|H]; [lia|]). contradiction.
Defined.

(** X8.  Whatever the label map holds, every value of the resized label map
    lies in 0..255 and is a value of the input reduced modulo 256. *)
Theorem resize_mask_output_is_uint8 (mask out : array2 Z) (new_size : nat) :
  rect mask ->
  _resize_mask mask new_size = Some out ->
  forall v, In v (values out) ->
    (0 <= v < 256)%Z /\ exists u, In u (values mask) /\ v = (u mod 256)%Z.
Proof.
  intros R E v Hv. unfold _resize_mask in E.
  destruct (resize_nearest mask new_size new_size) as [o|] eqn:Eo;
    [|discriminate].
  injection E as <-.
  destruct (resize_nearest_returns_inv _ _ _ Eo) as [NE W].
  destruct (resize_nearest_spec new_size new_size R NE W)
    as [o' [Eo' [_ [_ Hincl]]]].
  rewrite Eo in Eo'. injection Eo' as <-.
  apply values_astype_uint8 in Hv. destruct Hv as [u [Hu ->]].
  split; [apply Z.mod_pos_bound; lia|].
  exists u. split; [now apply Hincl | reflexivity].
Qed.

Lemma resize_mask_output_is_uint8_witness :
  Forall (fun v => (0 <= v < 256)%Z /\
                   exists u, In u (values wide_mask) /\ v = (u mod 256)%Z)
    (values [[0%Z]]).
Proof.
  apply Forall_forall.
  apply (@resize_mask_output_is_uint8 wide_mask [[0%Z]] 1).
  - repeat constructor.
  - reflexivity.
Defined.

(** X9.  Magnifying a square label map by an integer factor [k] repeats
    every label over a [k] x [k] block: cell (i, j) of the output holds the
    label of cell (i / k, j / k) of the input, reduced modulo 256. *)
Theorem resize_mask_integer_upscale (mask : array2 Z) (n k : nat) :
  mask <> [] ->
  height mask = n ->
  Forall (fun row => length row = n) mask ->
  0 < k ->
  exists out,
    _resize_mask mask (k * n) = Some out /\
    forall i j, i < k * n -> j < k * n ->
      exists v, pixel_at mask (i / k) (j / k) = Some v /\
                pixel_at out i j = Some (v mod 256)%Z.
Proof.
  intros NE H F Hk.
  assert (Hn : 0 < n) by (destruct mask; [congruence | simpl in H; lia]).
  pose proof (square_width H F) as W.
  unfold _resize_mask, resize_nearest. rewrite H, W.
  destruct (Nat.eqb_spec n 0); [lia|]. simpl.
  eexists. split; [reflexivity|]. intros i j Hi Hj.
  assert (Hi' : i / k < n) by (apply Nat.Div0.div_lt_upper_bound; lia).
  assert (Hj' : j / k < n) by (apply Nat.Div0.div_lt_upper_bound; lia).
  destruct (@pixel_at_Some _ mask (i / k) (j / k)) as [v Ev];
    [now apply rows_rect with (w := n) | lia | lia |].
  exists v. split; [exact Ev|].
  rewrite pixel_at_astype_uint8, pixel_at_gather by assumption.
  rewrite !nearest_index_upscale by assumption.
  simpl. now rewrite (pixel_at_nth 0%Z _ _ _ Ev).
Qed.

Lemma resize_mask_integer_upscale_witness :
  exists out,
    _resize_mask square_mask (3 * 2) = Some out /\
    forall i j, i < 3 * 2 -> j < 3 * 2 ->
      exists v, pixel_at square_mask (i / 3) (j / 3) = Some v /\
                pixel_at out i j = Some (v mod 256)%Z.
Proof.
  apply resize_mask_integer_upscale.
  - discriminate.
  - reflexivity.
  - repeat constructor.
  - lia.
Defined.

(** X10.  [PairRandomCrop] returns exactly when the image is at least
    [image_size] high and wide; a smaller image is an error, whatever the
    mask and the generator. *)
Theorem pair_random_crop_returns_iff (image_size : nat)
  (image : pil pixel) (mask : pil Z) (g : rng) :
  (exists result, PairRandomCrop image_size image mask g = Some result) <->
  image_size <= height image /\ image_size <= width image.
Proof.
  split.
  - intros [result E]. unfold PairRandomCrop, bind in E.
    destruct (get_params image (image_size, image_size) g)
      as [[[[[i j] h] w] g1]|] eqn:Ep; [|discriminate].
    apply get_params_fits in Ep. lia.
  - intros [Hh Hw].
    destruct (@get_params_returns _ image image_size image_size g Hh Hw)
      as [i [j [g' Ep]]].
    unfold PairRandomCrop, bind. rewrite Ep. unfold ret. eauto.
Qed.

(** X11.  When the image and the mask already have the crop size,
    [PairRandomCrop] returns them unchanged and takes nothing from the
    generator. *)
Theorem pair_random_crop_exact_size (n : nat)
  (image : pil pixel) (mask : pil Z) (g : rng) :
  height image = n -> Forall (fun row => length row = n) image ->
  height mask = n -> Forall (fun row => length row = n) mask ->
  PairRandomCrop n image mask g = Some ((image, mask), g).
Proof.
  intros Hi Fi Hm Fm.
  pose proof (square_width Hi Fi) as Wi.
  assert (Ci : crop [] image 0 0 n n = image).
  { unfold crop. rewrite <- Hi at 1. exact (gather_identity [] Fi). }
  assert (Cm : crop 0%Z mask 0 0 n n = mask).
  { unfold crop. rewrite <- Hm at 1. exact (gather_identity 0%Z Fm). }
  unfold PairRandomCrop, bind, get_params, size. rewrite Hi, Wi.
  rewrite Nat.ltb_irrefl, Nat.eqb_refl. simpl. unfold ret.
  now rewrite Ci, Cm.
Qed.

Lemma pair_random_crop_exact_size_witness :
  PairRandomCrop 3 small_image small_mask gen_a
  = Some ((small_image, small_mask), gen_a).
Proof.
  apply pair_random_crop_exact_size; try reflexivity; repeat constructor.
Defined.

(** X12.  [PairRandomCrop] does not compare the sizes of the image and the
    mask: the window is placed inside the image, and a cell of the window
    that falls outside the mask comes out as label 0 in the cropped mask,
    which still has the crop size. *)
Theorem pair_random_crop_pads_short_mask (image_size : nat)
  (image : pil pixel) (mask : pil Z) (g g' : rng)
  (image' : pil pixel) (mask' : pil Z) :
  PairRandomCrop image_size image mask g = Some ((image', mask'), g') ->
  exists start_y start_x,
    start_y + image_size <= height image /\
    start_x + image_size <= width image /\
    size mask' = (image_size, image_size) /\
    forall r c, r < image_size -> c < image_size ->
      pixel_at mask' r c
      = Some (match pixel_at mask (start_y + r) (start_x + c) with
              | Some v => v
              | None => 0%Z
              end).
Proof.
  unfold PairRandomCrop, bind.
  destruct (get_params image (image_size, image_size) g)
    as [[[[[start_y start_x] h] w] g1]|] eqn:Ep; [|discriminate].
  unfold ret. intros E. injection E as <- <- <-.
  destruct (get_params_fits _ _ _ _ Ep) as [-> [-> [Hy Hx]]].
  exists start_y, start_x. repeat split; try assumption.
  - apply gather_square_size.
  - intros r c Hr Hc. unfold crop. rewrite pixel_at_gather by assumption.
    f_equal.
    destruct (pixel_at mask (start_y + r) (start_x + c)) as [v|] eqn:Ev.
    + now apply pixel_at_nth.
    + now apply pixel_at_None_nth.
Qed.

Lemma pair_random_crop_pads_short_mask_witness :
  exists start_y start_x,
    start_y + 2 <= height small_image /\
    start_x + 2 <= width small_image /\
    size [[0; 0]; [0; 0]]%Z = (2, 2) /\
    forall r c, r < 2 -> c < 2 ->
      pixel_at [[0; 0]; [0; 0]]%Z r c
      = Some (match pixel_at short_mask (start_y + r) (start_x + c) with
              | Some v => v
              | None => 0%Z
              end).
Proof.
  apply (@pair_random_crop_pads_short_mask 2 small_image short_mask gen_a
           (mkRng tape_a 6) cropped_image).
  vm_compute. reflexivity.
Defined.

(** *** Flipping *)

Lemma pixel_at_hflip {A : Type} (img : pil A) (w r c : nat) :
  Forall (fun row => length row = w) img -> c < w ->
  pixel_at (hflip img) r c = pixel_at img r (w - 1 - c).
Proof.
  intros F Hc. unfold pixel_at, hflip. rewrite nth_error_map.
  destruct (nth_error img r) as [row|] eqn:E; simpl; [|reflexivity].
  rewrite Forall_forall in F. pose proof (F row (nth_error_In _ _ E)) as L.
  rewrite nth_error_rev, L.
  destruct (Nat.ltb_spec c w); [|lia]. f_equal. lia.
Qed.

Lemma values_hflip {A : Type} (img : pil A) :
  incl (values (hflip img)) (values img).
Proof.
  unfold values, hflip. intros v H.
  apply in_concat in H. destruct H as [row [Hrow Hv]].
  apply in_map_iff in Hrow. destruct Hrow as [row0 [<- Hrow0]].
  apply in_rev in Hv. apply in_concat. now exists row0.
Qed.

Lemma values_gather_or_zero {A : Type} (zero : A) (a : array2 A)
  (row_of col_of : nat -> nat) (out_h out_w : nat) :
  incl (values (gather zero a row_of col_of out_h out_w)) (zero :: values a).
Proof.
  intros v H. apply values_gather in H. destruct H as [i [j [_ [_ ->]]]].
  destruct (pixel_at a (row_of i) (col_of j)) as [x|] eqn:E.
  - right. rewrite (pixel_at_nth zero _ _ _ E). now apply pixel_at_In in E.
  - left. symmetry. now apply pixel_at_None_nth.
Qed.

Section AugmentationMore.

Variable ColorJitter : Q -> Q -> Q -> Q -> pil pixel -> M (pil pixel).
Variable skimage_resize :
  array2 pixel -> nat -> nat -> option (array2 (list Q)).

(** What a returning call of [augment] did, step by step. *)
Lemma augment_steps (self : DataAugmentation)
  (image : pil pixel) (mask : pil Z) (g g' : rng)
  (out_image : pil pixel) (out_mask : pil Z) :
  augment ColorJitter self image mask g = Some ((out_image, out_mask), g') ->
  exists jittered g1 start_y start_x g2 (flip : bool),
    ColorJitter (brightness_rate self) (contrast_rate self)
      (saturation_rate self) (hue_rate self) image g = Some (jittered, g1) /\
    get_params jittered (central_crop_size self, central_crop_size self) g1
    = Some ((start_y, start_x, central_crop_size self, central_crop_size self),
            g2) /\
    out_image
    = (if flip then @hflip pixel else fun x => x)
        (crop [] jittered start_y start_x
           (central_crop_size self) (central_crop_size self)) /\
    out_mask
    = (if flip then @hflip Z else fun x => x)
        (crop 0%Z mask start_y start_x
           (central_crop_size self) (central_crop_size self)).
Proof.
  unfold augment, bind at 1.
  destruct (ColorJitter _ _ _ _ image g) as [[jittered g1]|] eqn:E1;
    [|discriminate].
  unfold PairRandomCrop, bind at 1. unfold bind at 1.
  destruct (get_params jittered _ g1)
    as [[[[[start_y start_x] h] w] g2]|] eqn:E2; [|discriminate].
  destruct (get_params_fits _ _ _ _ E2) as [-> [-> _]].
  unfold ret at 1. unfold random_random, bind, next_raw, ret. intros E.
  exists jittered, g1, start_y, start_x, g2,
    (negb (Qle_bool (uniform01 (tape g2 (used g2))) (h_flipping_chance self))).
  split; [reflexivity|]. split; [exact E2|].
  destruct (negb (Qle_bool _ _)); injection E as <- <- _; now split.
Qed.

Lemma jitter_size (self : DataAugmentation) (image jittered : pil pixel)
  (g g1 : rng) :
  ColorJitter_keeps_size ColorJitter -> valid_rates self ->
  ColorJitter (brightness_rate self) (contrast_rate self)
    (saturation_rate self) (hue_rate self) image g = Some (jittered, g1) ->
  size jittered = size image.
Proof.
  intros HCJ [Hb [Hc [Hs [Hh Hh']]]] E.
  destruct (HCJ _ _ _ _ image g Hb Hc Hs Hh Hh') as [img' [g' [E' Sz]]].
  rewrite E in E'. injection E' as <- <-. exact Sz.
Qed.

Lemma augment_mask_labels (self : DataAugmentation)
  (image : pil pixel) (mask : pil Z) (g g' : rng)
  (out_image : pil pixel) (out_mask : pil Z) :
  augment ColorJitter self image mask g = Some ((out_image, out_mask), g') ->
  incl (values out_mask) (0%Z :: values mask) /\
  (ColorJitter_keeps_size ColorJitter -> valid_rates self ->
   rect mask -> size mask = size image ->
   incl (values out_mask) (values mask)).
Proof.
  intros E.
  destruct (augment_steps _ _ _ _ E)
    as [jittered [g1 [start_y [start_x [g2 [flip [E1 [E2 [_ ->]]]]]]]]].
  split.
  - intros v Hv. destruct flip; [apply values_hflip in Hv|];
      unfold crop in Hv; exact (@values_gather_or_zero _ _ _ _ _ _ _ v Hv).
  - intros HCJ Hv R Sz.
    pose proof (jitter_size HCJ Hv E1) as Sj. rewrite <- Sz in Sj.
    unfold size in Sj. injection Sj as Sw Sh.
    destruct (get_params_fits _ _ _ _ E2) as [_ [_ [Hy Hx]]].
    assert (H : incl (values (crop 0%Z mask start_y start_x
                                (central_crop_size self) (central_crop_size self)))
                  (values mask)).
    { unfold crop. apply gather_in_range_values; [exact R | |]; intros i Hi; lia. }
    intros v Hin. destruct flip; [apply values_hflip in Hin|]; now apply H.
Qed.

(** X13.  Whenever [augment] returns, one window offset (start_y, start_x)
    and one flip decision account for both outputs: cell (r, c) of the
    returned image is the cell of the colour-jittered image, and cell
    (r, c) of the returned mask is the cell of the input mask, at the same
    place (start_y + r, start_x + c), or (start_y + r, start_x + size - 1 -
    c) when flipped. *)
Theorem augment_keeps_alignment (self : DataAugmentation)
  (image : pil pixel) (mask : pil Z) (g g' : rng)
  (out_image : pil pixel) (out_mask : pil Z) :
  augment ColorJitter self image mask g = Some ((out_image, out_mask), g') ->
  exists jittered g1 start_y start_x (flip : bool),
    ColorJitter (brightness_rate self) (contrast_rate self)
      (saturation_rate self) (hue_rate self) image g = Some (jittered, g1) /\
    start_y + central_crop_size self <= height jittered /\
    start_x + central_crop_size self <= width jittered /\
    forall r c, r < central_crop_size self -> c < central_crop_size self ->
      let source_column :=
        start_x + (if flip then central_crop_size self - 1 - c else c) in
      (forall px, pixel_at jittered (start_y + r) source_column = Some px ->
                  pixel_at out_image r c = Some px) /\
      (forall v, pixel_at mask (start_y + r) source_column = Some v ->
                 pixel_at out_mask r c = Some v).
Proof.
  intros E.
  destruct (augment_steps _ _ _ _ E)
    as [jittered [g1 [start_y [start_x [g2 [flip [E1 [E2 [-> ->]]]]]]]]].
  destruct (get_params_fits _ _ _ _ E2) as [_ [_ [Hy Hx]]].
  exists jittered, g1, start_y, start_x, flip.
  split; [exact E1|]. split; [exact Hy|]. split; [exact Hx|].
  intros r c Hr Hc. destruct flip; simpl.
  - split; intros x Hx'.
    + rewrite (@pixel_at_hflip _ _ (central_crop_size self))
        by (apply gather_rows || assumption).
      apply pixel_at_crop; [assumption | lia | exact Hx'].
    + rewrite (@pixel_at_hflip _ _ (central_crop_size self))
        by (apply gather_rows || assumption).
      apply pixel_at_crop; [assumption | lia | exact Hx'].
  - split; intros x Hx'; now apply pixel_at_crop.
Qed.

(** X14.  The mask returned by [augment] holds no label other than labels
    of the input mask and the padding label 0; when the mask has the size
    of the image (and the colour jitter keeps the image size), it holds
    labels of the input mask only. *)
Theorem augment_never_invents_labels (self : DataAugmentation)
  (image : pil pixel) (mask : pil Z) (g g' : rng)
  (out_image : pil pixel) (out_mask : pil Z) :
  augment ColorJitter self image mask g = Some ((out_image, out_mask), g') ->
  incl (values out_mask) (0%Z :: values mask) /\
  (ColorJitter_keeps_size ColorJitter -> valid_rates self ->
   rect mask -> size mask = size image ->
   incl (values out_mask) (values mask)).
Proof. exact (@augment_mask_labels self image mask g g' out_image out_mask). Qed.

End AugmentationMore.

(** *** The sample transform *)

Lemma pixel_at_map {A B : Type} (f : A -> B) (a : array2 A) (r c : nat) :
  pixel_at (map (map f) a) r c = option_map f (pixel_at a r c).
Proof.
  unfold pixel_at. rewrite nth_error_map.
  destruct (nth_error a r) as [row|]; simpl; [|reflexivity].
  now rewrite nth_error_map.
Qed.

Lemma resize_mask_shape_labels (mask rm : array2 Z) (n : nat) :
  rect mask ->
  (forall v, In v (values mask) -> (0 <= v < 256)%Z) ->
  _resize_mask mask n = Some rm ->
  height rm = n /\ Forall (fun row => length row = n) rm /\
  incl (values rm) (values mask).
Proof.
  intros R H8 E. unfold _resize_mask in E.
  destruct (resize_nearest mask n n) as [o|] eqn:Eo; [|discriminate].
  injection E as <-.
  destruct (resize_nearest_returns_inv _ _ _ Eo) as [NE W].
  destruct (resize_nearest_spec n n R NE W) as [o' [Eo' [Hh [Hr Hincl]]]].
  rewrite Eo in Eo'. injection Eo' as <-.
  rewrite astype_uint8_in_range
    by (intros v Hv; apply H8; now apply Hincl).
  repeat split; assumption.
Qed.

Lemma uint8_of_float_range (q : Q) : (0 <= uint8_of_float q < 256)%Z.
Proof. unfold uint8_of_float. apply Z.mod_pos_bound. lia. Qed.

Section TransformMore.

Variable ColorJitter : Q -> Q -> Q -> Q -> pil pixel -> M (pil pixel).
Variable skimage_resize :
  array2 pixel -> nat -> nat -> option (array2 (list Q)).

Lemma resize_image_shape (image ri : array2 pixel) (n : nat) :
  skimage_resize_shape skimage_resize ->
  _resize_image skimage_resize image n = Some ri ->
  height ri = n /\ Forall (fun row => length row = n) ri.
Proof.
  intros HS E. unfold _resize_image in E.
  destruct (skimage_resize image n n) as [raw|] eqn:Er; [|discriminate].
  injection E as <-. destruct (HS _ _ _ _ Er) as [Hh Hr].
  unfold height in *. rewrite length_map. split; [exact Hh|].
  apply Forall_forall. intros row Hrow. apply in_map_iff in Hrow.
  destruct Hrow as [row0 [<- Hrow0]]. rewrite length_map.
  rewrite Forall_forall in Hr. now apply Hr.
Qed.

Lemma resize_image_channel_range (image ri : array2 pixel) (n r j c : nat)
  (px : pixel) :
  _resize_image skimage_resize image n = Some ri ->
  pixel_at ri r j = Some px ->
  (0 <= nth c px 0 <= 255)%Z.
Proof.
  intros E Hpx. unfold _resize_image in E.
  destruct (skimage_resize image n n) as [raw|]; [|discriminate].
  injection E as <-. rewrite pixel_at_map in Hpx.
  destruct (pixel_at raw r j) as [px0|]; [|discriminate].
  injection Hpx as <-.
  destruct (nth_in_or_default c (map uint8_of_float px0) 0%Z) as [H|H].
  - apply in_map_iff in H. destruct H as [x [<- _]].
    pose proof (uint8_of_float_range x). lia.
  - rewrite H. lia.
Qed.

(** What a returning call of [_transform] did, step by step. *)
Lemma transform_steps (self : DeepFashion2Dataset)
  (image : array2 pixel) (mask : array2 Z) (g g' : rng)
  (tensor : list (array2 Q)) (out_mask : array2 Z) :
  _transform ColorJitter skimage_resize self image mask g
  = Some ((tensor, out_mask), g') ->
  exists ri rm,
    _resize_image skimage_resize image (_image_resize self) = Some ri /\
    _resize_mask mask (_image_resize self) = Some rm /\
    match _data_augmentation self with
    | Some da =>
        exists out_image,
          augment ColorJitter da ri rm g = Some ((out_image, out_mask), g') /\
          tensor = Normalize 0 1 (ToTensor out_image)
    | None =>
        out_mask = rm /\ g' = g /\ tensor = Normalize 0 1 (ToTensor ri)
    end.
Proof.
  unfold _transform, bind, lift, ret, to_pil_image, np_array.
  destruct (_resize_image skimage_resize image (_image_resize self)) as [ri|];
    simpl; [|discriminate].
  destruct (_resize_mask mask (_image_resize self)) as [rm|];
    simpl; [|discriminate].
  intros E. exists ri, rm. split; [reflexivity|]. split; [reflexivity|].
  destruct (_data_augmentation self) as [da|].
  - destruct (augment ColorJitter da ri rm g) as [[[oi om] g1]|];
      [|discriminate].
    injection E as <- <- <-. exists oi. now split.
  - injection E as <- <- <-. now repeat split.
Qed.

(** X15.  A dataset whose crop size exceeds its resize size cannot produce
    a sample: [_transform] raises on every input (the resized image is
    smaller than the crop window). *)
Theorem transform_raises_when_crop_exceeds_resize
  (self : DeepFashion2Dataset) (da : DataAugmentation)
  (image : array2 pixel) (mask : array2 Z) (g : rng) :
  skimage_resize_shape skimage_resize ->
  ColorJitter_keeps_size ColorJitter ->
  valid_rates da ->
  _data_augmentation self = Some da ->
  _image_resize self < central_crop_size da ->
  _transform ColorJitter skimage_resize self image mask g = None.
Proof.
  intros HS HCJ Hv Hda Hlt.
  destruct (_transform ColorJitter skimage_resize self image mask g)
    as [[[tensor out_mask] g']|] eqn:E; [|reflexivity].
  exfalso. destruct (@transform_steps self image mask g g' tensor out_mask E) as [ri [rm [Ei [_ Ha]]]].
  rewrite Hda in Ha. destruct Ha as [oi [Ea _]].
  destruct (@augment_steps ColorJitter da ri rm g g' oi out_mask Ea)
    as [jittered [g1 [sy [sx [g2 [flip [E1 [E2 _]]]]]]]].
  pose proof (@jitter_size ColorJitter da ri jittered g g1 HCJ Hv E1) as Sz.
  unfold size in Sz. injection Sz as _ Sh.
  destruct (@resize_image_shape image ri (_image_resize self) HS Ei) as [Hh _].
  apply get_params_fits in E2. lia.
Qed.

(** X16.  With augmentation, the mask of a sample has the crop size and
    holds only labels of the 8-bit input mask: neither the resize, nor the
    crop, nor the flip invents a label. *)
Theorem transform_augmented_mask_labels
  (self : DeepFashion2Dataset) (da : DataAugmentation)
  (image : array2 pixel) (mask : array2 Z) (g g' : rng)
  (tensor : list (array2 Q)) (out_mask : array2 Z) :
  skimage_resize_shape skimage_resize ->
  ColorJitter_keeps_size ColorJitter ->
  valid_rates da ->
  _data_augmentation self = Some da ->
  rect mask ->
  (forall v, In v (values mask) -> (0 <= v < 256)%Z) ->
  _transform ColorJitter skimage_resize self image mask g
  = Some ((tensor, out_mask), g') ->
  size out_mask = (central_crop_size da, central_crop_size da) /\
  incl (values out_mask) (values mask).
Proof.
  intros HS HCJ Hv Hda R H8 E.
  destruct (@transform_steps self image mask g g' tensor out_mask E) as [ri [rm [Ei [Em Ha]]]].
  rewrite Hda in Ha. destruct Ha as [oi [Ea _]].
  destruct (@resize_image_shape image ri (_image_resize self) HS Ei)
    as [Hih Hir].
  destruct (@resize_mask_shape_labels mask rm (_image_resize self) R H8 Em)
    as [Hmh [Hmr Hincl]].
  split.
  - destruct (@augment_steps ColorJitter da ri rm g g' oi out_mask Ea)
      as [jittered [g1 [sy [sx [g2 [flip [_ [_ [_ ->]]]]]]]]].
    destruct flip; rewrite ?hflip_size; apply gather_square_size.
  - destruct (@augment_mask_labels ColorJitter da ri rm g g' oi out_mask Ea)
      as [_ H].
    intros v Hin. apply Hincl. apply (H HCJ Hv); [| |exact Hin].
    + now apply rows_rect with (w := _image_resize self).
    + unfold size. now rewrite (square_width Hih Hir), (square_width Hmh Hmr),
        Hih, Hmh.
Qed.

(** X17.  Without augmentation, the tensor of a sample is the resized image
    in channel-first layout with every 8-bit channel value divided by 255:
    its cell at channel [c], row [r], column [j] is channel [c] of pixel
    (r, j) over 255, a number between 0 and 1 (the normalisation with mean
    0 and deviation 1 changes nothing). *)
Theorem transform_tensor_layout (self : DeepFashion2Dataset)
  (image : array2 pixel) (mask : array2 Z) (g g' : rng)
  (tensor : list (array2 Q)) (out_mask : array2 Z) :
  _data_augmentation self = None ->
  _transform ColorJitter skimage_resize self image mask g
  = Some ((tensor, out_mask), g') ->
  exists resized,
    _resize_image skimage_resize image (_image_resize self) = Some resized /\
    length tensor = channels resized /\
    forall c r j px,
      c < channels resized -> pixel_at resized r j = Some px ->
      exists q, tensor_at tensor c r j = Some q /\
                (q == inject_Z (nth c px 0%Z) / 255)%Q /\
                (0 <= q)%Q /\ (q <= 1)%Q.
Proof.
  intros HNone E.
  destruct (@transform_steps self image mask g g' tensor out_mask E) as [ri [rm [Ei [_ Ha]]]].
  rewrite HNone in Ha. destruct Ha as [_ [_ ->]].
  exists ri. split; [exact Ei|]. split.
  { unfold Normalize, ToTensor. now rewrite !length_map, length_seq. }
  intros c r j px Hc Hpx.
  pose proof (@resize_image_channel_range image ri (_image_resize self)
                r j c px Ei Hpx) as Hrange.
  unfold tensor_at, Normalize, ToTensor.
  rewrite !nth_error_map, nth_error_seq.
  destruct (Nat.ltb_spec c (channels ri)); [|lia]. simpl.
  rewrite !pixel_at_map, Hpx. simpl.
  eexists. split; [reflexivity|].
  assert (Hq : ((inject_Z (nth c px 0%Z) / 255 - 0) / 1
                == inject_Z (nth c px 0%Z) / 255)%Q) by field.
  split; [exact Hq|]. rewrite Hq. split.
  - apply Qle_shift_div_l; [reflexivity|]. rewrite Qmult_0_l.
    change 0%Q with (inject_Z 0). rewrite <- Zle_Qle. lia.
  - apply Qle_shift_div_r; [reflexivity|]. rewrite Qmult_1_l.
    change 255%Q with (inject_Z 255). rewrite <- Zle_Qle. lia.
Qed.

End TransformMore.

(** *** The theorems above at the example inputs *)

Lemma nearest_image_resize_shape : skimage_resize_shape nearest_image_resize.
Proof.
  intros img out_h out_w out E. unfold nearest_image_resize in E.
  destruct ((height img =? 0) || (width img =? 0)); [discriminate|].
  injection E as <-. split.
  - unfold height. rewrite length_map. apply gather_height.
  - apply Forall_forall. intros row H. apply in_map_iff in H.
    destruct H as [row0 [<- H0]]. rewrite length_map.
    pose proof (gather_rows [] img (nearest_index (height img) out_h)
                  (nearest_index (width img) out_w) out_h out_w) as F.
    rewrite Forall_forall in F. now apply F.
Qed.

Lemma valid_rates_crop2 : valid_rates crop2.
Proof. unfold valid_rates. simpl. repeat split; discriminate. Qed.

Lemma valid_rates_crop5 : valid_rates crop5.
Proof. unfold valid_rates. simpl. repeat split; discriminate. Qed.

Lemma valid_rates_flip_often : valid_rates flip_often.
Proof. unfold valid_rates. simpl. repeat split; discriminate. Qed.

Lemma augment_flip_often_run :
  augment brightness_jitter flip_often small_image small_mask gen_a
  = Some ((flipped_image, flipped_mask), mkRng tape_a 8).
Proof. vm_compute. reflexivity. Qed.

Lemma augment_keeps_alignment_witness :
  exists start_y start_x (flip : bool),
    forall r c, r < 2 -> c < 2 ->
      forall v,
        pixel_at small_mask (start_y + r)
          (start_x + (if flip then 2 - 1 - c else c)) = Some v ->
        pixel_at flipped_mask r c = Some v.
Proof.
  destruct (augment_keeps_alignment _ _ _ _ _ augment_flip_often_run)
    as [jittered [g1 [start_y [start_x [flip [_ [_ [_ H]]]]]]]].
  exists start_y, start_x, flip. intros r c Hr Hc v Hv.
  exact (proj2 (H r c Hr Hc) v Hv).
Defined.

Lemma augment_never_invents_labels_witness :
  incl (values flipped_mask) (values small_mask).
Proof.
  destruct (augment_never_invents_labels _ _ _ _ _ augment_flip_often_run)
    as [_ H].
  apply H.
  - exact brightness_jitter_keeps_size.
  - exact valid_rates_flip_often.
  - repeat constructor.
  - reflexivity.
Defined.

Lemma transform_raises_when_crop_exceeds_resize_witness :
  _transform brightness_jitter nearest_image_resize undersized_dataset
    small_image small_mask gen_a = None.
Proof.
  apply (@transform_raises_when_crop_exceeds_resize brightness_jitter
           nearest_image_resize undersized_dataset crop5).
  - exact nearest_image_resize_shape.
  - exact brightness_jitter_keeps_size.
  - exact valid_rates_crop5.
  - reflexivity.
  - simpl. lia.
Defined.

Lemma transform_augmented_mask_labels_witness :
  exists tensor out_mask g',
    _transform brightness_jitter nearest_image_resize augmented_dataset
      small_image small_mask gen_a = Some ((tensor, out_mask), g') /\
    size out_mask = (2, 2) /\ incl (values out_mask) (values small_mask).
Proof.
  destruct (_transform brightness_jitter nearest_image_resize augmented_dataset
              small_image small_mask gen_a) as [[[tensor out_mask] g']|] eqn:E.
  - exists tensor, out_mask, g'. split; [reflexivity|].
    apply (@transform_augmented_mask_labels brightness_jitter
             nearest_image_resize augmented_dataset crop2
             small_image small_mask gen_a g' tensor out_mask).
    + exact nearest_image_resize_shape.
    + exact brightness_jitter_keeps_size.
    + exact valid_rates_crop2.
    + reflexivity.
    + repeat constructor.
    + simpl. intros v H. repeat (destruct H as [<-|H]; [lia|]). contradiction.
    + exact E.
  - exfalso. vm_compute in E. discriminate.
Defined.

Lemma transform_tensor_layout_witness :
  exists tensor resized,
    _resize_image nearest_image_resize small_image 2 = Some resized /\
    length tensor = channels resized /\
    forall c r j px,
      c < channels resized -> pixel_at resized r j = Some px ->
      exists q, tensor_at tensor c r j = Some q /\
                (q == inject_Z (nth c px 0%Z) / 255)%Q /\
                (0 <= q)%Q /\ (q <= 1)%Q.
Proof.
  destruct (_transform brightness_jitter nearest_image_resize plain_dataset
              small_image small_mask gen_a) as [[[tensor out_mask] g']|] eqn:E.
  - exists tensor.
    exact (@transform_tensor_layout brightness_jitter nearest_image_resize
             plain_dataset small_image small_mask gen_a g' tensor out_mask
             eq_refl E).
  - exfalso. vm_compute in E. discriminate.
Defined.

End DataMore.

(* ------------------------------------------------------------------ *)
(** ** The dataset object *)

Module DatasetMore.

Import Data Examples DataFacts.
Local Open Scope nat_scope.

Lemma combine_map_same {A B C : Type} (f : A -> B) (g : A -> C) (l : list A) :
  combine (map f l) (map g l) = map (fun x => (f x, g x)) l.
Proof.
  induction l as [|x l IH]; simpl; [reflexivity | now rewrite IH].
Qed.

Lemma existing_pairs_kept (fs : filesystem) (pairs : list (string * string)) :
  snd (existing_pairs fs pairs)
  = filter (fun p => isfile fs (fst p) && isfile fs (snd p)) pairs.
Proof.
  induction pairs as [|[img mask] rest IH]; simpl; [reflexivity|].
  destruct (existing_pairs fs rest) as [ev kept]. simpl in IH.
  destruct (isfile fs img), (isfile fs mask); simpl; now rewrite IH.
Qed.

Lemma existing_pairs_events (fs : filesystem) (pairs : list (string * string)) :
  Forall (fun e => exists p, e = EvIsFile p /\
                     (In p (map fst pairs) \/ In p (map snd pairs)))
    (fst (existing_pairs fs pairs)).
Proof.
  induction pairs as [|[img mask] rest IH]; simpl; [constructor|].
  destruct (existing_pairs fs rest) as [ev kept]. simpl in IH.
  assert (IH' : Forall (fun e => exists p, e = EvIsFile p /\
                  (In p (img :: map fst rest) \/ In p (mask :: map snd rest))) ev).
  { eapply Forall_impl; [|exact IH]. intros e [p [-> [H|H]]];
      exists p; (split; [reflexivity|]); [left | right]; now right. }
  destruct (isfile fs img), (isfile fs mask); simpl;
    repeat (constructor; [eexists; split; [reflexivity|]; simpl; tauto|]);
    exact IH'.
Qed.

(** The candidate pairs of a subset: image and mask path of each manifest
    row tagged with the subset, in manifest order. *)
Lemma init_candidates (path subset : string) (data : list row) :
  combine
    (map (fun r => path_join path (image_path r))
       (filter (fun r => String.eqb (set r) subset) data))
    (map (fun r => path_join path (mask_path r))
       (filter (fun r => String.eqb (set r) subset) data))
  = map (fun r => (path_join path (image_path r), path_join path (mask_path r)))
      (filter (fun r => String.eqb (set r) subset) data).
Proof. apply combine_map_same. Qed.

Lemma init_success (fs : filesystem) (path : string) (image_resize : nat)
  (subset : string) (data_augmentation : option DataAugmentation)
  (data : list row) :
  In subset valid_subsets ->
  read_json fs (path_join path "data.json") = Rows data ->
  let candidates :=
    map (fun r => (path_join path (image_path r), path_join path (mask_path r)))
      (filter (fun r => String.eqb (set r) subset) data) in
  let pairs :=
    filter (fun p => isfile fs (fst p) && isfile fs (snd p)) candidates in
  __init__ fs path image_resize subset data_augmentation
  = (EvOpen (path_join path "data.json")
       :: fst (existing_pairs fs candidates)
       ++ [EvPrint (length candidates) (length pairs)],
     inr (mkDataset image_resize data_augmentation pairs)).
Proof.
  intros Hs Hr candidates pairs. unfold __init__.
  apply existsb_eqb_In in Hs. rewrite Hs. simpl. rewrite Hr.
  rewrite init_candidates. fold candidates.
  pose proof (existing_pairs_kept fs candidates) as K. fold pairs in K.
  destruct (existing_pairs fs candidates) as [ev kept]. simpl in K. subst kept.
  simpl. subst candidates. now rewrite !length_map.
Qed.

Lemma filter_all {A : Type} (f : A -> bool) (l : list A) :
  (forall x, In x l -> f x = true) -> filter f l = l.
Proof.
  induction l as [|x l IH]; intros H; simpl; [reflexivity|].
  rewrite (H x (or_introl eq_refl)). f_equal. apply IH.
  intros y Hy. apply H. now right.
Qed.

(** X18.  For a valid subset tag and a readable manifest, the constructor
    returns a dataset that stores the resize size and the augmentation as
    given, and whose pairs are exactly the (image, mask) paths of the
    manifest rows tagged with the subset for which both files exist: image
    and mask of a pair always come from the same row. *)
Theorem init_pairs_are_existing_rows (fs : filesystem) (path : string)
  (image_resize : nat) (subset : string)
  (data_augmentation : option DataAugmentation) (data : list row) :
  In subset valid_subsets ->
  read_json fs (path_join path "data.json") = Rows data ->
  exists events self,
    __init__ fs path image_resize subset data_augmentation
    = (events, inr self) /\
    _image_resize self = image_resize /\
    _data_augmentation self = data_augmentation /\
    forall img mask,
      In (img, mask) (_image_mask_pairs self) <->
      (exists r, In r data /\ set r = subset /\
                 img = path_join path (image_path r) /\
                 mask = path_join path (mask_path r)) /\
      isfile fs img = true /\ isfile fs mask = true.
Proof.
  intros Hs Hr.
  rewrite (@init_success fs path image_resize subset data_augmentation data
             Hs Hr).
  do 2 eexists. split; [reflexivity|]. simpl.
  split; [reflexivity|]. split; [reflexivity|].
  intros img mask. rewrite filter_In, in_map_iff. simpl.
  rewrite andb_true_iff. split.
  - intros [[r [E Hin]] Hex]. injection E as <- <-.
    apply filter_In in Hin. destruct Hin as [Hin Hset].
    apply String.eqb_eq in Hset. split; [|exact Hex].
    exists r. now repeat split.
  - intros [[r [Hin [Hset [-> ->]]]] Hex]. split; [|exact Hex].
    exists r. split; [reflexivity|]. apply filter_In.
    split; [exact Hin|]. now apply String.eqb_eq.
Qed.

Lemma init_pairs_are_existing_rows_witness :
  exists events self,
    __init__ small_fs "full_dataset" 580 "train" None = (events, inr self) /\
    _image_mask_pairs self
    = [("full_dataset/img/a.jpg", "full_dataset/mask/a.png")]%string.
Proof.
  destruct (@init_pairs_are_existing_rows small_fs "full_dataset" 580 "train"
              None manifest_rows) as [events [self [E _]]].
  - simpl. tauto.
  - reflexivity.
  - exists events, self. split; [exact E|].
    vm_compute in E. injection E as _ <-. reflexivity.
Defined.

(** X19.  For a valid subset tag the constructor opens the manifest first
    and opens no other file; when it succeeds, everything after that is
    existence tests on candidate image and mask paths, followed by one
    report of the number of candidate rows and the number of pairs kept,
    the second being the dataset length and never above the first. *)
Theorem init_io_trace (fs : filesystem) (path : string)
  (image_resize : nat) (subset : string)
  (data_augmentation : option DataAugmentation) :
  In subset valid_subsets ->
  exists rest,
    fst (__init__ fs path image_resize subset data_augmentation)
    = EvOpen (path_join path "data.json") :: rest /\
    Forall (fun e => forall p, e <> EvOpen p) rest /\
    forall self,
      snd (__init__ fs path image_resize subset data_augmentation) = inr self ->
      exists checks n_rows,
        rest = checks ++ [EvPrint n_rows (__len__ self)] /\
        __len__ self <= n_rows /\
        Forall (fun e => exists p, e = EvIsFile p) checks.
Proof.
  intros Hs.
  destruct (read_json fs (path_join path "data.json")) as [| |data] eqn:Hr.
  - unfold __init__. apply existsb_eqb_In in Hs. rewrite Hs, Hr. simpl.
    exists []. repeat split; [constructor | discriminate].
  - unfold __init__. apply existsb_eqb_In in Hs. rewrite Hs, Hr. simpl.
    exists []. repeat split; [constructor | discriminate].
  - rewrite (@init_success fs path image_resize subset data_augmentation data
             Hs Hr).
    simpl. eexists. split; [reflexivity|].
    pose proof (existing_pairs_events fs
      (map (fun r => (path_join path (image_path r), path_join path (mask_path r)))
         (filter (fun r => String.eqb (set r) subset) data))) as Ev.
    split.
    + apply Forall_app. split.
      * eapply Forall_impl; [|exact Ev]. intros e [p [-> _]] q. discriminate.
      * repeat constructor. intros q. discriminate.
    + intros self E. injection E as <-. do 2 eexists.
      split; [reflexivity|]. split.
      * unfold __len__. simpl. apply filter_length_le.
      * eapply Forall_impl; [|exact Ev]. intros e [p [-> _]]. now exists p.
Qed.

Lemma init_io_trace_witness :
  exists rest,
    fst (__init__ small_fs "full_dataset" 580 "test" None)
    = EvOpen "full_dataset/data.json" :: rest /\
    Forall (fun e => forall p, e <> EvOpen p) rest.
Proof.
  destruct (@init_io_trace small_fs "full_dataset" 580 "test" None)
    as [rest [E [F _]]].
  - simpl. tauto.
  - exists rest. split; [exact E | exact F].
Defined.

(** X20.  When the image and the mask of every manifest row of the subset
    exist, no row is dropped: the dataset length is the number of manifest
    rows tagged with the subset. *)
Theorem init_keeps_all_when_files_exist (fs : filesystem) (path : string)
  (image_resize : nat) (subset : string)
  (data_augmentation : option DataAugmentation) (data : list row) :
  In subset valid_subsets ->
  read_json fs (path_join path "data.json") = Rows data ->
  (forall r, In r data -> set r = subset ->
     isfile fs (path_join path (image_path r)) = true /\
     isfile fs (path_join path (mask_path r)) = true) ->
  exists events self,
    __init__ fs path image_resize subset data_augmentation
    = (events, inr self) /\
    __len__ self
    = length (filter (fun r => String.eqb (set r) subset) data).
Proof.
  intros Hs Hr Hall.
  rewrite (@init_success fs path image_resize subset data_augmentation data
             Hs Hr).
  do 2 eexists. split; [reflexivity|]. unfold __len__. simpl.
  rewrite filter_all; [now rewrite length_map|].
  intros [img mask] Hin. apply in_map_iff in Hin.
  destruct Hin as [r [E Hin]]. injection E as <- <-.
  apply filter_In in Hin. destruct Hin as [Hin Hset].
  apply String.eqb_eq in Hset. simpl.
  destruct (Hall r Hin Hset) as [-> ->]. reflexivity.
Qed.

Lemma init_keeps_all_when_files_exist_witness :
  exists events self,
    __init__ small_fs "full_dataset" 580 "train" None = (events, inr self) /\
    __len__ self = 1.
Proof.
  apply (@init_keeps_all_when_files_exist small_fs "full_dataset" 580 "train"
           None manifest_rows).
  - simpl. tauto.
  - reflexivity.
  - simpl. intros r [<-|[<-|[]]]; simpl; [now split | discriminate].
Defined.

(** *** Fetching samples *)

Lemma index_row_out_of_range {A : Type} (rows : list A) (idx : Z) :
  (idx < - Z.of_nat (length rows) \/ Z.of_nat (length rows) <= idx)%Z ->
  index_row rows idx = None.
Proof.
  intros H. unfold index_row.
  destruct (Z.leb_spec 0 idx), (Z.ltb_spec idx (Z.of_nat (length rows)));
    simpl; try lia;
    destruct (Z.leb_spec (- Z.of_nat (length rows)) idx), (Z.ltb_spec idx 0);
    simpl; try lia; reflexivity.
Qed.

Lemma index_row_negative {A : Type} (rows : list A) (idx : Z) :
  (- Z.of_nat (length rows) <= idx < 0)%Z ->
  index_row rows idx = index_row rows (idx + Z.of_nat (length rows)).
Proof.
  intros H. unfold index_row.
  destruct (Z.leb_spec 0 idx); [lia|]. simpl.
  destruct (Z.leb_spec (- Z.of_nat (length rows)) idx); [|lia].
  destruct (Z.ltb_spec idx 0); [|lia]. simpl.
  destruct (Z.leb_spec 0 (idx + Z.of_nat (length rows))); [|lia].
  destruct (Z.ltb_spec (idx + Z.of_nat (length rows)) (Z.of_nat (length rows)));
    [|lia].
  reflexivity.
Qed.

Lemma draw_indices_returns (n_rows len : nat) (g : rng) :
  exists idxs g',
    draw_indices n_rows len g = Some (idxs, g') /\
    length idxs = n_rows /\
    Forall (fun idx => idx <= len) idxs /\
    used g' = used g + n_rows /\ tape g' = tape g.
Proof.
  revert g. induction n_rows as [|k IH]; intros g; simpl.
  - exists [], g. unfold ret. repeat split; [constructor | lia].
  - unfold bind at 1, random_randint, randint.
    destruct (Nat.leb_spec (len + 1) 0); [lia|].
    unfold bind at 1, next_raw, ret at 1.
    destruct (IH (mkRng (tape g) (S (used g)))) as [idxs [g' [E [L [F [U T]]]]]].
    unfold bind. rewrite E. unfold ret.
    do 2 eexists. split; [reflexivity|]. simpl in *.
    repeat split; try lia; try assumption.
    constructor; [|exact F].
    assert (B : (tape g (used g) mod N.of_nat (len + 1 - 0)
                 < N.of_nat (len + 1 - 0))%N) by (apply N.mod_lt; lia).
    remember (tape g (used g) mod N.of_nat (len + 1 - 0))%N as m. lia.
Qed.

Section FetchMore.

Variable ColorJitter : Q -> Q -> Q -> Q -> pil pixel -> M (pil pixel).
Variable skimage_resize :
  array2 pixel -> nat -> nat -> option (array2 (list Q)).

(** X21.  [__getitem__] raises for every index outside [-len, len - 1]; in
    particular the index [len] itself is out of range. *)
Theorem getitem_out_of_range (store : image_store)
  (self : DeepFashion2Dataset) (idx : Z) (g : rng) :
  (idx < - Z.of_nat (__len__ self) \/ Z.of_nat (__len__ self) <= idx)%Z ->
  __getitem__ ColorJitter skimage_resize store self idx g = None.
Proof.
  intros H. unfold __getitem__, bind, lift.
  now rewrite (index_row_out_of_range _ H).
Qed.

(** X22.  A negative index counts from the end: for [-len <= idx < 0],
    [__getitem__] at [idx] is [__getitem__] at [idx + len]. *)
Theorem getitem_negative_index (store : image_store)
  (self : DeepFashion2Dataset) (idx : Z) (g : rng) :
  (- Z.of_nat (__len__ self) <= idx < 0)%Z ->
  __getitem__ ColorJitter skimage_resize store self idx g
  = __getitem__ ColorJitter skimage_resize store self
      (idx + Z.of_nat (__len__ self)) g.
Proof.
  intros H. unfold __getitem__, bind, lift, __len__ in *.
  now rewrite (index_row_negative _ H).
Qed.

Lemma first_draw_overruns (store : image_store)
  (data : DeepFashion2Dataset) (n_rows : nat) (g : rng) :
  0 < n_rows ->
  (tape g (used g) mod N.of_nat (__len__ data + 1) = N.of_nat (__len__ data))%N ->
  main_fetch ColorJitter skimage_resize store data n_rows g = None.
Proof.
  intros Hn Hraw. destruct n_rows as [|k]; [lia|].
  unfold main_fetch, bind at 1. simpl draw_indices.
  unfold bind at 1, random_randint, randint.
  destruct (Nat.leb_spec (__len__ data + 1) 0); [lia|].
  unfold bind at 1, next_raw, ret at 1.
  replace (__len__ data + 1 - 0) with (__len__ data + 1) by lia.
  rewrite Hraw, Nnat.Nat2N.id. simpl Nat.add.
  destruct (draw_indices_returns k (__len__ data)
              (mkRng (tape g) (S (used g)))) as [idxs [g' [E _]]].
  unfold bind at 1. rewrite E. unfold ret at 1.
  simpl fetch_all. unfold bind at 1.
  unfold __getitem__, bind at 1, lift.
  rewrite index_row_out_of_range; [reflexivity|]. right. unfold __len__. lia.
Qed.

(** X23.  The demonstration script draws its indices from 0 to [len(data)]
    inclusive.  Whenever the first draw gives [len(data)] (the generator's
    next output is [len] modulo [len + 1]), fetching that sample raises. *)
Theorem main_fetch_index_can_overrun (store : image_store)
  (data : DeepFashion2Dataset) (n_rows : nat) (g : rng) :
  0 < n_rows ->
  (tape g (used g) mod N.of_nat (__len__ data + 1) = N.of_nat (__len__ data))%N ->
  main_fetch ColorJitter skimage_resize store data n_rows g = None.
Proof. exact (@first_draw_overruns store data n_rows g). Qed.

(** X24.  On a dataset without pairs the demonstration script raises for
    every generator: the only index it can draw is 0, which is out of
    range. *)
Theorem main_fetch_empty_dataset_raises (store : image_store)
  (data : DeepFashion2Dataset) (n_rows : nat) (g : rng) :
  0 < n_rows -> __len__ data = 0 ->
  main_fetch ColorJitter skimage_resize store data n_rows g = None.
Proof.
  intros Hn He. apply first_draw_overruns; [exact Hn|].
  rewrite He. simpl. apply N.mod_1_r.
Qed.

End FetchMore.

Lemma getitem_out_of_range_witness :
  __getitem__ brightness_jitter nearest_image_resize small_store
    one_pair_dataset 1 gen_a = None.
Proof.
  apply getitem_out_of_range. right. simpl. lia.
Defined.

Lemma getitem_negative_index_witness :
  __getitem__ brightness_jitter nearest_image_resize small_store
    one_pair_dataset (-1) gen_a
  = __getitem__ brightness_jitter nearest_image_resize small_store
      one_pair_dataset (-1 + Z.of_nat (__len__ one_pair_dataset)) gen_a.
Proof.
  apply getitem_negative_index. simpl. lia.
Defined.

Lemma main_fetch_index_can_overrun_witness :
  main_fetch brightness_jitter nearest_image_resize small_store
    one_pair_dataset 5 gen_ones = None.
Proof.
  apply main_fetch_index_can_overrun.
  - lia.
  - reflexivity.
Defined.

Lemma main_fetch_empty_dataset_raises_witness :
  main_fetch brightness_jitter nearest_image_resize small_store
    plain_dataset 5 gen_a = None.
Proof.
  apply main_fetch_empty_dataset_raises.
  - lia.
  - reflexivity.
Defined.

End DatasetMore.
